(** * Region-ordered, duplicate-free record fetching (parascopy, inner/common.py)

    A shallow embedding of [get_regions], [_fetch_regions_wo_duplicates] and
    [fetch_iterator] together with the string primitives they rely on, and
    the properties of the region set builder and of the deduplicating fetch
    iterator.

    Conventions of the embedding
    - Python [str] values are [string]s whose characters are code points
      below 256.
    - Python exceptions are values of [exn]; a computation that may raise is
      a [result].
    - An iterator is the finite list of the records it yields, followed by
      the exception that ends it, if any ([stream]). *)

From Stdlib Require Import ZArith NArith List String Ascii Bool Lia Sorted
  Permutation.
Import ListNotations.
Open Scope Z_scope.

(** ** Exceptions and fallible computations *)

Inductive exn : Type :=
| ValueError (text : string)
| IndexError
| AttributeError
| OSError (path : string)
| UnknownChromosomeError (chrom : string)
| ParseError
| SourceFetchError (what : string).

Definition result (A : Type) : Type := (exn + A)%type.

Definition ok {A : Type} (a : A) : result A := inr a.
Definition raise {A : Type} (e : exn) : result A := inl e.

Definition bind {A B : Type} (m : result A) (k : A -> result B) : result B :=
  match m with
  | inl e => inl e
  | inr a => k a
  end.

Notation "x <- m ;; k" := (bind m (fun x => k))
  (at level 61, m at next level, right associativity).

(** A [for] loop that builds a list and stops at the first exception. *)
Fixpoint map_result {A B : Type} (f : A -> result B) (l : list A)
  : result (list B) :=
  match l with
  | [] => ok []
  | a :: l' => b <- f a ;; bs <- map_result f l' ;; ok (b :: bs)
  end.

(** ** String primitives of the interpreter *)

Module PyStr.

(** [str.isspace] on one character: TAB, LF, VT, FF, CR, FS, GS, RS, US,
    SPACE, NEL and NBSP are the white space characters below 256. *)
Definition is_space (c : ascii) : bool :=
  let n := nat_of_ascii c in
  ((9 <=? n) && (n <=? 13) || (28 <=? n) && (n <=? 32)
   || (n =? 133) || (n =? 160))%nat.

Fixpoint lstrip (s : string) : string :=
  match s with
  | EmptyString => EmptyString
  | String c s' => if is_space c then lstrip s' else s
  end.

Fixpoint rstrip (s : string) : string :=
  match s with
  | EmptyString => EmptyString
  | String c s' =>
      match rstrip s' with
      | EmptyString => if is_space c then EmptyString else String c EmptyString
      | t => String c t
      end
  end.

(** [s.strip()] *)
Definition strip (s : string) : string := rstrip (lstrip s).

(** [s.split(sep)] for a one-character separator; never the empty list. *)
Fixpoint split (sep : ascii) (s : string) : list string :=
  match s with
  | EmptyString => [EmptyString]
  | String c s' =>
      if Ascii.eqb c sep then EmptyString :: split sep s'
      else match split sep s' with
           | [] => [String c EmptyString]
           | w :: ws => String c w :: ws
           end
  end.

(** [s.startswith(p)] *)
Fixpoint startswith (p s : string) : bool :=
  match p with
  | EmptyString => true
  | String a p' =>
      match s with
      | EmptyString => false
      | String b s' => Ascii.eqb a b && startswith p' s'
      end
  end.

(** [c in s] for a one-character [c]. *)
Fixpoint contains (c : ascii) (s : string) : bool :=
  match s with
  | EmptyString => false
  | String d s' => Ascii.eqb c d || contains c s'
  end.

Definition digit_val (c : ascii) : option Z :=
  let n := nat_of_ascii c in
  if ((48 <=? n) && (n <=? 57))%nat then Some (Z.of_nat (n - 48)) else None.

(** The white space [int] skips around the number: TAB, LF, VT, FF, CR and
    SPACE, and the white space characters past the ASCII range (NEL and
    NBSP below 256), which the conversion first turns into spaces. The
    separators FS, GS, RS and US are white space for [str.strip] but not
    here. *)
Definition is_int_space (c : ascii) : bool :=
  let n := nat_of_ascii c in
  ((9 <=? n) && (n <=? 13) || (n =? 32) || (n =? 133) || (n =? 160))%nat.

Fixpoint skip_space (s : string) : string :=
  match s with
  | EmptyString => EmptyString
  | String c s' => if is_int_space c then skip_space s' else s
  end.

Fixpoint all_space (s : string) : bool :=
  match s with
  | EmptyString => true
  | String c s' => is_int_space c && all_space s'
  end.

(** Decimal digits with single underscores between them, then white space
    up to the end: the value and the number of digits. [after_digit] says
    whether the previous character was a digit. *)
Fixpoint digits (acc count : Z) (after_digit : bool) (s : string)
  : option (Z * Z) :=
  match s with
  | EmptyString => if after_digit then Some (acc, count) else None
  | String c s' =>
      match digit_val c with
      | Some d => digits (10 * acc + d) (count + 1) true s'
      | None =>
          if Ascii.eqb c "_" then
            if after_digit then digits acc count false s' else None
          else if after_digit && all_space s then Some (acc, count)
          else None
      end
  end.

(** The interpreter's default limit on the digits of a decimal string
    ([sys.int_info.default_max_str_digits]). *)
Definition int_max_str_digits : Z := 4300.

(** [int(s)] for a string in base ten: white space, an optional sign,
    digits, white space. A string that is no such number, or has more
    digits than the limit, raises [ValueError]. *)
Definition int (s : string) : result Z :=
  let t := skip_space s in
  let r :=
    match t with
    | String "-" u =>
        option_map (fun p => (Z.opp (fst p), snd p)) (digits 0 0 false u)
    | String "+" u => digits 0 0 false u
    | _ => digits 0 0 false t
    end in
  match r with
  | Some (z, count) =>
      if int_max_str_digits <? count then raise (ValueError s) else ok z
  | None => raise (ValueError s)
  end.

End PyStr.

Definition TAB : ascii := ascii_of_nat 9.
Definition LF : ascii := ascii_of_nat 10.

(** ** Genome *)

(** Modelled from the spec: the genome module is not part of the sources at
    hand. A genome is an ordered collection of chromosomes, each with a name
    and a length; the id of a chromosome is its index. *)
Record Genome : Type := { chroms : list (string * N) }.

(** Modelled from the spec: [genome.chrom_lengths], the lengths in genome
    order. *)
Definition chrom_lengths (g : Genome) : list Z :=
  map (fun p => Z.of_N (snd p)) (chroms g).

(** The index of the first chromosome called [name]. *)
Fixpoint index_of (name : string) (l : list (string * N)) : option nat :=
  match l with
  | [] => None
  | (n, _) :: l' =>
      if String.eqb n name then Some O else option_map S (index_of name l')
  end.

(** Modelled from the spec: [genome.chrom_id(name)] fails with
    [UnknownChromosomeError] when the name is absent. *)
Definition genome_chrom_id (g : Genome) (name : string) : result nat :=
  match index_of name (chroms g) with
  | Some i => ok i
  | None => raise (UnknownChromosomeError name)
  end.

(** Modelled from the spec: [genome.chrom_len(id)]. *)
Definition genome_chrom_len (g : Genome) (id : nat) : result Z :=
  match nth_error (chroms g) id with
  | Some (_, len) => ok (Z.of_N len)
  | None => raise IndexError
  end.

(** Modelled from the spec: [genome.chrom_name(id)]. *)
Definition genome_chrom_name (g : Genome) (id : nat) : result string :=
  match nth_error (chroms g) id with
  | Some (n, _) => ok n
  | None => raise IndexError
  end.

(** ** Named intervals *)

(** Modelled from the spec: the intervals of the genome module, a half-open
    range [[start, end)] of one chromosome with an optional name. *)
Record NamedInterval : Type := {
  chrom_id : nat;
  start : Z;
  end_ : Z;
  name : option string
}.

(** Modelled from the spec: the constructor [NamedInterval(chrom_id, start,
    end, genome, name)] of the genome module. After construction
    [start <= end]; an inverted range is a [ParseError]. *)
Definition mk_interval (cid : nat) (s e : Z) (g : Genome) (nm : option string)
  : result NamedInterval :=
  if e <? s then raise ParseError
  else ok {| chrom_id := cid; start := s; end_ := e; name := nm |}.

(** Modelled from the spec: [interval.trim(genome)] clamps [start] to
    [max(0, start)] and [end] to [min(end, chrom_length)]. *)
Definition trim (g : Genome) (iv : NamedInterval) : result NamedInterval :=
  len <- genome_chrom_len g (chrom_id iv) ;;
  ok {| chrom_id := chrom_id iv;
        start := Z.max 0 (start iv);
        end_ := Z.min (end_ iv) len;
        name := name iv |}.

(** Modelled from the spec: [region.chrom_name(genome)]. *)
Definition chrom_name (iv : NamedInterval) (g : Genome) : result string :=
  genome_chrom_name g (chrom_id iv).

(** Modelled from the spec: the comparison [a < b] of two intervals,
    lexicographic on [(chrom_id, start, end)]. *)
Definition interval_ltb (a b : NamedInterval) : bool :=
  (chrom_id a <? chrom_id b)%nat
  || (chrom_id a =? chrom_id b)%nat
     && ((start a <? start b)
         || (start a =? start b) && (end_ a <? end_ b)).

Definition interval_le (a b : NamedInterval) : Prop :=
  interval_ltb b a = false.

(** [list.sort()]: the stable sort by [<]. The stable arrangement of a list
    is unique, so insertion stands for the interpreter's algorithm. *)
Fixpoint insert_interval (x : NamedInterval) (l : list NamedInterval)
  : list NamedInterval :=
  match l with
  | [] => [x]
  | y :: l' =>
      if interval_ltb y x then y :: insert_interval x l' else x :: y :: l'
  end.

Fixpoint sort_intervals (l : list NamedInterval) : list NamedInterval :=
  match l with
  | [] => []
  | x :: l' => insert_interval x (sort_intervals l')
  end.

(** ** Records and indexed sources *)

(** A record of the source. [attr_start] is [entry.start] when the record
    has that attribute; [fields] are the text fields [entry[i]]. *)
Record Entry : Type := {
  attr_start : option Z;
  fields : list string
}.

(** [entry.start if start_attr else int(entry[1])] *)
Definition get_start (start_attr : bool) (entry : Entry) : result Z :=
  if start_attr then
    match attr_start entry with
    | Some s => ok s
    | None => raise AttributeError
    end
  else
    match nth_error (fields entry) 1 with
    | Some f => PyStr.int f
    | None => raise IndexError
    end.

(** What iterating an iterator of records gives: the records it yields and
    then, when it does not end normally, the exception it raises. *)
Record stream : Type := {
  items : list Entry;
  fault : option exn
}.

(** An object with a [fetch] method: [obj.fetch(chrom_name, start, end)] and
    the call without arguments, [obj.fetch()]. The call itself may raise. *)
Record Source : Type := {
  fetch : string -> Z -> Z -> result stream;
  fetch_all : result stream
}.

(** ** The deduplicating generator *)

Record cursor : Type := {
  prev_chrom_id : option nat;
  prev_start : Z
}.

Definition init_cursor : cursor :=
  {| prev_chrom_id := None; prev_start := -1 |}.

(** [region.chrom_id == prev_chrom_id] *)
Definition same_chrom_as (c : cursor) (region : NamedInterval) : bool :=
  match prev_chrom_id c with
  | Some p => (chrom_id region =? p)%nat
  | None => false
  end.

(** The value of [prev_start] while the region is fetched: reset to [-1]
    when the chromosome changed. *)
Definition reset_start (c : cursor) (region : NamedInterval) : Z :=
  if same_chrom_as c region then prev_start c else -1.

(** The inner loop over the records of one fetch: the records yielded and the
    exception raised while reading a start, if any. *)
Fixpoint scan (start_attr same_chrom : bool) (prev : Z) (es : list Entry)
  : list Entry * option exn :=
  match es with
  | [] => ([], None)
  | entry :: es' =>
      if same_chrom then
        match get_start start_attr entry with
        | inl e => ([], Some e)
        | inr s =>
            if s <=? prev then scan start_attr same_chrom prev es'
            else let (ys, r) := scan start_attr same_chrom prev es' in
                 (entry :: ys, r)
        end
      else let (ys, r) := scan start_attr same_chrom prev es' in
           (entry :: ys, r)
  end.

(** The value of the loop variable [entry] after the loop. *)
Fixpoint last_entry (es : list Entry) : option Entry :=
  match es with
  | [] => None
  | e :: es' =>
      match last_entry es' with
      | None => Some e
      | Some x => Some x
      end
  end.

(** One iteration of the loop over the regions: the records yielded during
    it, and either the cursor for the next iteration or the exception that
    ends the generator. *)
Definition region_step (obj : Source) (genome : Genome) (start_attr : bool)
    (c : cursor) (region : NamedInterval) : list Entry * result cursor :=
  let same_chrom := same_chrom_as c region in
  let prev := reset_start c region in
  match chrom_name region genome with
  | inl e => ([], inl e)
  | inr nm =>
      match fetch obj nm (start region) (end_ region) with
      | inl e => ([], inl e)
      | inr st =>
          let (ys, r) := scan start_attr same_chrom prev (items st) in
          match r with
          | Some e => (ys, inl e)
          | None =>
              match fault st with
              | Some e => (ys, inl e)
              | None =>
                  match last_entry (items st) with
                  | None =>
                      (ys, inr {| prev_chrom_id := Some (chrom_id region);
                                  prev_start := prev |})
                  | Some entry =>
                      match get_start start_attr entry with
                      | inl e => (ys, inl e)
                      | inr s =>
                          (ys, inr {| prev_chrom_id := Some (chrom_id region);
                                      prev_start := Z.max prev s |})
                      end
                  end
              end
          end
      end
  end.

(** The loop over the regions from a given cursor: the block of records
    yielded by each region that was reached, and how the loop ends. *)
Fixpoint run (obj : Source) (genome : Genome) (start_attr : bool)
    (c : cursor) (regions : list NamedInterval)
  : list (list Entry) * result cursor :=
  match regions with
  | [] => ([], inr c)
  | region :: rest =>
      let (b, r) := region_step obj genome start_attr c region in
      match r with
      | inl e => ([b], inl e)
      | inr c' =>
          let (bs, r') := run obj genome start_attr c' rest in
          (b :: bs, r')
      end
  end.

(** The records yielded region by region. *)
Definition region_blocks (obj : Source) (regions : list NamedInterval)
    (genome : Genome) (start_attr : bool) : list (list Entry) :=
  fst (run obj genome start_attr init_cursor regions).

Definition _fetch_regions_wo_duplicates (obj : Source)
    (regions : list NamedInterval) (genome : Genome) (start_attr : bool)
  : stream :=
  let (bs, r) := run obj genome start_attr init_cursor regions in
  {| items := List.concat bs;
     fault := match r with inl e => Some e | inr _ => None end |}.

(** ** The region set builder *)

(** The attributes of [args] the builder looks at; each is [None] or a
    value. *)
Record Args : Type := {
  regions : option (list string);
  regions_file : option string
}.

(** Truth value of [args.regions]: [None] and the empty list are false. *)
Definition has_regions (args : Args) : bool :=
  match regions args with
  | Some (_ :: _) => true
  | _ => false
  end.

(** Truth value of [args.regions_file]: [None] and the empty string are
    false. *)
Definition has_regions_file (args : Args) : bool :=
  match regions_file args with
  | Some (String _ _) => true
  | _ => false
  end.

(** What [open_possible_gzip(path)] gives when iterated: the lines of the
    file, each with its line end, or the exception of the failed open. *)
Definition FileSystem : Type := string -> result (list string).

(** [NamedInterval.parse(region, genome)] of the genome module, which is not
    part of the sources at hand: taken as a parameter of the builder. *)
Definition Parser : Type := string -> Genome -> result NamedInterval.

(** A computation that opens files: the paths it opened, in order, and its
    result. *)
Record outcome (A : Type) : Type := {
  opened : list string;
  value : result A
}.
Arguments opened {A} _.
Arguments value {A} _.

(** [l[i]] *)
Definition item (l : list string) (i : nat) : result string :=
  match nth_error l i with
  | Some x => ok x
  | None => raise IndexError
  end.

(** The body of the loop over [args.regions]. *)
Definition region_of_string (parse : Parser) (genome : Genome)
    (region : string) : result NamedInterval :=
  interval <-
    (if PyStr.contains ":" region then parse region genome
     else cid <- genome_chrom_id genome region ;;
          e <- genome_chrom_len genome cid ;;
          mk_interval cid 0 e genome None) ;;
  trim genome interval.

(** The body of the loop over the lines of the region file, for a line that
    is not a comment. *)
Definition interval_of_line (genome : Genome) (line : string)
  : result NamedInterval :=
  let line := PyStr.split TAB (PyStr.strip line) in
  f0 <- item line 0 ;;
  cid <- genome_chrom_id genome f0 ;;
  f1 <- item line 1 ;;
  s <- PyStr.int f1 ;;
  f2 <- item line 2 ;;
  e <- PyStr.int f2 ;;
  interval <- mk_interval cid s e genome (nth_error line 3) ;;
  trim genome interval.

Fixpoint intervals_of_lines (genome : Genome) (lines : list string)
  : result (list NamedInterval) :=
  match lines with
  | [] => ok []
  | line :: rest =>
      if PyStr.startswith "#" line then intervals_of_lines genome rest
      else interval <- interval_of_line genome line ;;
           intervals <- intervals_of_lines genome rest ;;
           ok (interval :: intervals)
  end.

(** [enumerate(l)], counting from [i]. *)
Fixpoint enumerate_from {A : Type} (i : nat) (l : list A) : list (nat * A) :=
  match l with
  | [] => []
  | a :: l' => (i, a) :: enumerate_from (S i) l'
  end.

(** The loop of the branch taken when no region is selected. *)
Definition whole_genome (genome : Genome) : result (list NamedInterval) :=
  map_result
    (fun p : nat * Z =>
       nm <- genome_chrom_name genome (fst p) ;;
       mk_interval (fst p) 0 (snd p) genome (Some nm))
    (enumerate_from 0 (chrom_lengths genome)).

(** The list looped over by [for region in args.regions]. *)
Definition regions_list (args : Args) : list string :=
  match regions args with
  | Some l => l
  | None => []
  end.

(** The path given to [open_possible_gzip]. *)
Definition regions_path (args : Args) : string :=
  match regions_file args with
  | Some p => p
  | None => EmptyString
  end.

Definition get_regions (parse : Parser) (fs : FileSystem) (args : Args)
    (genome : Genome) (sort : bool) : outcome (list NamedInterval) :=
  let finish (r : result (list NamedInterval)) :=
    intervals <- r ;;
    ok (if sort then sort_intervals intervals else intervals) in
  if has_regions args then
    {| opened := [];
       value := finish (map_result (region_of_string parse genome)
                                   (regions_list args)) |}
  else if has_regions_file args then
    {| opened := [regions_path args];
       value := finish (lines <- fs (regions_path args) ;;
                        intervals_of_lines genome lines) |}
  else
    {| opened := []; value := finish (whole_genome genome) |}.

(** ** The fetch iterator *)

(** [obj.fetch(region.chrom_name(genome), region.start, region.end)] *)
Definition fetch_region (obj : Source) (genome : Genome)
    (region : NamedInterval) : result stream :=
  nm <- chrom_name region genome ;;
  fetch obj nm (start region) (end_ region).

(** [itertools.chain] of iterators that were already created. *)
Fixpoint chain (ss : list stream) : stream :=
  match ss with
  | [] => {| items := []; fault := None |}
  | s :: rest =>
      match fault s with
      | Some e => {| items := items s; fault := Some e |}
      | None =>
          let t := chain rest in
          {| items := items s ++ items t; fault := fault t |}
      end
  end.

Definition fetch_iterator (parse : Parser) (fs : FileSystem) (obj : Source)
    (args : Args) (genome : Genome) (no_duplicates start_attr : bool)
  : outcome stream :=
  if negb (has_regions args) && negb (has_regions_file args) then
    {| opened := []; value := fetch_all obj |}
  else
    let built := get_regions parse fs args genome true in
    {| opened := opened built;
       value :=
         regions <- value built ;;
         if negb no_duplicates then
           ss <- map_result (fetch_region obj genome) regions ;;
           ok (chain ss)
         else ok (_fetch_regions_wo_duplicates obj regions genome start_attr) |}.

(** ** Vocabulary of the properties *)

(** The record has a start the generator can read. *)
Definition readable (start_attr : bool) (e : Entry) : Prop :=
  exists s, get_start start_attr e = inr s.

(** The start of a record whose start can be read. *)
Definition start_of (start_attr : bool) (e : Entry) : Z :=
  match get_start start_attr e with
  | inr s => s
  | inl _ => 0
  end.

(** Every range query of the source gives records with readable starts in
    non-decreasing order. *)
Definition sorted_source (obj : Source) (start_attr : bool) : Prop :=
  forall nm s e st,
    fetch obj nm s e = inr st ->
    Forall (readable start_attr) (items st)
    /\ StronglySorted Z.le (map (start_of start_attr) (items st)).

(** Every range query of the source gives records with readable starts that
    are not negative. *)
Definition natural_source (obj : Source) (start_attr : bool) : Prop :=
  forall nm s e st,
    fetch obj nm s e = inr st ->
    Forall (fun x => exists z, get_start start_attr x = inr z /\ 0 <= z)
           (items st).

(** Two intervals of one chromosome share a position. *)
Definition overlaps (a b : NamedInterval) : Prop :=
  chrom_id a = chrom_id b /\ start a < end_ b /\ start b < end_ a.

(** Order of two intervals by chromosome id alone. *)
Definition chrom_le (a b : NamedInterval) : Prop :=
  (chrom_id a <= chrom_id b)%nat.

(** Order on (chromosome id, start) pairs. *)
Definition key_le (x y : nat * Z) : Prop :=
  (fst x < fst y)%nat \/ (fst x = fst y /\ snd x <= snd y).

(** The yielded records, each with the chromosome id of the region whose
    fetch produced it and its start. *)
Fixpoint tagged (start_attr : bool) (regions : list NamedInterval)
    (blocks : list (list Entry)) : list (nat * Z) :=
  match regions, blocks with
  | r :: rs, b :: bs =>
      map (fun e => (chrom_id r, start_of start_attr e)) b
      ++ tagged start_attr rs bs
  | _, _ => []
  end.

(** The chromosome id of the last region of a list. *)
Fixpoint last_chrom (l : list NamedInterval) : option nat :=
  match l with
  | [] => None
  | r :: l' =>
      match last_chrom l' with
      | None => Some (chrom_id r)
      | Some x => Some x
      end
  end.

(** The records kept out of one fetch: those past the cursor when the
    chromosome is unchanged, all of them otherwise. *)
Definition kept (start_attr : bool) (c : cursor) (region : NamedInterval)
    (es : list Entry) : list Entry :=
  if same_chrom_as c region
  then filter (fun e => prev_start c <? start_of start_attr e) es
  else es.

(** The cursor after a region whose fetch gave the records [es]. *)
Definition advance (start_attr : bool) (c : cursor) (region : NamedInterval)
    (es : list Entry) : cursor :=
  {| prev_chrom_id := Some (chrom_id region);
     prev_start :=
       match last_entry es with
       | None => reset_start c region
       | Some e => Z.max (reset_start c region) (start_of start_attr e)
       end |}.

(** One interval per chromosome, in genome order, spanning it and named
    after it; [i] is the id of the first chromosome of [l]. *)
Fixpoint full_chromosomes_from (i : nat) (l : list (string * N))
  : list NamedInterval :=
  match l with
  | [] => []
  | (nm, len) :: l' =>
      {| chrom_id := i; start := 0; end_ := Z.of_N len; name := Some nm |}
      :: full_chromosomes_from (S i) l'
  end.

Definition full_chromosomes (g : Genome) : list NamedInterval :=
  full_chromosomes_from 0 (chroms g).



(** ** Concrete data for the examples *)

Module Fixture.

Open Scope string_scope.

Definition genome : Genome :=
  {| chroms := [("chr1", 1000%N); ("chr2", 500%N)] |}.

(** A record with a [start] attribute and a start column. *)
Definition rec (s : Z) (col : string) : Entry :=
  {| attr_start := Some s; fields := ["chr"; col] |}.

Definition iv (c : nat) (s e : Z) : NamedInterval :=
  {| chrom_id := c; start := s; end_ := e; name := None |}.

(** A source given by the table of its answers; a query that is not in
    the table has no records. *)
Fixpoint answer (t : list (string * Z * Z * list Entry))
    (nm : string) (s e : Z) : list Entry :=
  match t with
  | [] => []
  | (n, s', e', es) :: t' =>
      if String.eqb n nm && (s' =? s)%Z && (e' =? e)%Z then es
      else answer t' nm s e
  end.

Definition table (t : list (string * Z * Z * list Entry)) : Source :=
  {| fetch := fun nm s e =>
       ok {| items := answer t nm s e; fault := None |};
     fetch_all :=
       ok {| items := flat_map (fun q => snd q) t; fault := None |} |}.

Definition no_parser : Parser := fun _ _ => raise ParseError.

Definition line (cols : list string) : string :=
  String.concat (String TAB "") cols ++ String LF "".

End Fixture.

(** * Properties of the deduplicating generator *)

Section Generator.

Variable obj : Source.
Variable genome : Genome.
Variable start_attr : bool.

Local Abbreviation step := (region_step obj genome start_attr).
Local Abbreviation loop := (run obj genome start_attr).

Lemma start_of_eq e s : get_start start_attr e = inr s -> start_of start_attr e = s.
Proof. unfold start_of. now intros ->. Qed.

Lemma readable_start e :
  readable start_attr e -> get_start start_attr e = inr (start_of start_attr e).
Proof. intros [s H]. now rewrite (start_of_eq _ _ H). Qed.

Lemma scan_other_chrom p es : scan start_attr false p es = (es, None).
Proof.
  induction es as [|e es IH]; simpl; [reflexivity|].
  now rewrite IH.
Qed.

Lemma scan_same_chrom p es :
  Forall (readable start_attr) es ->
  scan start_attr true p es
  = (filter (fun e => p <? start_of start_attr e) es, None).
Proof.
  induction 1 as [|e es He _ IH]; simpl; [reflexivity|].
  rewrite (readable_start _ He), IH.
  destruct (Z.leb_spec (start_of start_attr e) p) as [Hle|Hgt].
  - replace (p <? start_of start_attr e) with false; [reflexivity|].
    symmetry. apply Z.ltb_ge. exact Hle.
  - replace (p <? start_of start_attr e) with true; [reflexivity|].
    symmetry. apply Z.ltb_lt. exact Hgt.
Qed.

Lemma reset_start_same c r :
  same_chrom_as c r = true -> reset_start c r = prev_start c.
Proof. unfold reset_start. now intros ->. Qed.

Lemma reset_start_other c r :
  same_chrom_as c r = false -> reset_start c r = -1.
Proof. unfold reset_start. now intros ->. Qed.

Lemma last_entry_in es : forall e, last_entry es = Some e -> In e es.
Proof.
  induction es as [|x es IH]; simpl; intro e; [discriminate|].
  destruct (last_entry es) as [y|].
  - intros [= <-]. right. now apply IH.
  - intros [= <-]. now left.
Qed.

(** One iteration, when the name lookup and the fetch succeed and every
    start can be read. *)
Lemma region_step_spec c r nm st :
  chrom_name r genome = inr nm ->
  fetch obj nm (start r) (end_ r) = inr st ->
  Forall (readable start_attr) (items st) ->
  step c r
  = (kept start_attr c r (items st),
     match fault st with
     | Some e => inl e
     | None => inr (advance start_attr c r (items st))
     end).
Proof.
  intros Hn Hf Hr. unfold region_step, kept, advance.
  rewrite Hn, Hf.
  destruct (same_chrom_as c r) eqn:Hs.
  - rewrite (scan_same_chrom _ _ Hr), (reset_start_same _ _ Hs).
    destruct (fault st); [reflexivity|].
    destruct (last_entry (items st)) as [e|] eqn:Hl; [|reflexivity].
    assert (He : readable start_attr e).
    { rewrite Forall_forall in Hr. apply Hr. now apply last_entry_in. }
    now rewrite (readable_start _ He).
  - rewrite scan_other_chrom.
    destruct (fault st); [reflexivity|].
    destruct (last_entry (items st)) as [e|] eqn:Hl; [|reflexivity].
    assert (He : readable start_attr e).
    { rewrite Forall_forall in Hr. apply Hr. now apply last_entry_in. }
    now rewrite (readable_start _ He).
Qed.

(** The first region of a chromosome run: nothing is compared. *)
Lemma region_step_fst_other c r nm st :
  same_chrom_as c r = false ->
  chrom_name r genome = inr nm ->
  fetch obj nm (start r) (end_ r) = inr st ->
  fst (step c r) = items st.
Proof.
  intros Hs Hn Hf. unfold region_step. rewrite Hn, Hf, Hs, scan_other_chrom.
  destruct (fault st); [reflexivity|].
  destruct (last_entry (items st)) as [e|]; [|reflexivity].
  now destruct (get_start start_attr e).
Qed.

Lemma run_app c pre post :
  loop c (pre ++ post)
  = match loop c pre with
    | (bs, inl e) => (bs, inl e)
    | (bs, inr c') =>
        (bs ++ fst (loop c' post), snd (loop c' post))
    end.
Proof.
  revert c. induction pre as [|r pre IH]; intro c; simpl.
  - now destruct (loop c post).
  - destruct (step c r) as [b [e|c']]; [reflexivity|].
    rewrite IH. now destruct (loop c' pre) as [bs [e|c'']].
Qed.

Lemma step_chrom c r b c' :
  step c r = (b, inr c') -> prev_chrom_id c' = Some (chrom_id r).
Proof.
  unfold region_step.
  destruct (chrom_name r genome) as [|nm]; [discriminate|].
  destruct (fetch obj nm (start r) (end_ r)) as [|st]; [discriminate|].
  destruct (scan _ _ _ _) as [ys [e|]]; [discriminate|].
  destruct (fault st); [discriminate|].
  destruct (last_entry (items st)) as [e|].
  - destruct (get_start start_attr e); [discriminate|]. now intros [= _ <-].
  - now intros [= _ <-].
Qed.

Lemma run_last_chrom regions : forall c bs c',
  loop c regions = (bs, inr c') ->
  prev_chrom_id c'
  = match last_chrom regions with
    | Some x => Some x
    | None => prev_chrom_id c
    end.
Proof.
  induction regions as [|r rest IH]; intros c bs c'; simpl.
  - now intros [= _ <-].
  - destruct (step c r) as [b [e|c1]] eqn:Hs; [discriminate|].
    destruct (loop c1 rest) as [bs1 r1] eqn:Hl. intros [= _ ->].
    specialize (IH _ _ _ Hl). rewrite IH.
    destruct (last_chrom rest); [reflexivity|].
    now apply step_chrom in Hs.
Qed.

Lemma same_chrom_after pre c r bs :
  loop init_cursor pre = (bs, inr c) ->
  same_chrom_as c r = true <-> last_chrom pre = Some (chrom_id r).
Proof.
  intro H. apply run_last_chrom in H. unfold same_chrom_as. rewrite H.
  destruct (last_chrom pre) as [x|]; simpl.
  - rewrite Nat.eqb_eq. split; [now intros ->|now intros [= ->]].
  - split; discriminate.
Qed.

(** The generator on [pre ++ r :: post], once [pre] has been processed. *)
Lemma run_reach pre r post bs c :
  loop init_cursor pre = (bs, inr c) ->
  exists rest,
    region_blocks obj (pre ++ r :: post) genome start_attr
    = bs ++ fst (step c r) :: rest
    /\ items (_fetch_regions_wo_duplicates obj (pre ++ r :: post)
                genome start_attr)
       = List.concat bs ++ fst (step c r) ++ List.concat rest.
Proof.
  intro H. unfold region_blocks, _fetch_regions_wo_duplicates.
  rewrite run_app, H. simpl.
  destruct (step c r) as [b [e|c1]]; simpl.
  - exists []. split; [reflexivity|].
    now rewrite concat_app.
  - destruct (loop c1 post) as [bs1 r1]. simpl. exists bs1.
    split; [reflexivity|]. now rewrite concat_app.
Qed.

End Generator.

(** ** Sorted lists *)

Section SortedLists.

Context {A : Type} (R : A -> A -> Prop).

Lemma StronglySorted_app_intro (l1 l2 : list A) :
  StronglySorted R l1 -> StronglySorted R l2 ->
  (forall x y, In x l1 -> In y l2 -> R x y) ->
  StronglySorted R (l1 ++ l2).
Proof.
  induction 1 as [|a l1 Hs IH Ha]; simpl; intros H2 Hx; [exact H2|].
  constructor.
  - apply IH; [exact H2|]. intros x y Hin. apply Hx. now right.
  - apply Forall_app. split; [exact Ha|].
    apply Forall_forall. intros y Hy. apply Hx; [now left|exact Hy].
Qed.

Lemma StronglySorted_app_elim (l1 l2 : list A) :
  StronglySorted R (l1 ++ l2) ->
  StronglySorted R l1 /\ StronglySorted R l2
  /\ (forall x y, In x l1 -> In y l2 -> R x y).
Proof.
  induction l1 as [|a l1 IH]; simpl; intro H.
  - repeat split; [constructor|exact H|intros x y []].
  - inversion H as [|? ? Hs Ha]; subst.
    destruct (IH Hs) as [H1 [H2 H3]].
    apply Forall_app in Ha. destruct Ha as [Ha1 Ha2].
    repeat split; [now constructor|exact H2|].
    intros x y [<-|Hin] Hy.
    + rewrite Forall_forall in Ha2. now apply Ha2.
    + now apply H3.
Qed.

End SortedLists.

Lemma StronglySorted_map_filter {A : Type} (f : A -> Z) (p : A -> bool)
    (l : list A) :
  StronglySorted Z.le (map f l) -> StronglySorted Z.le (map f (filter p l)).
Proof.
  induction l as [|a l IH]; simpl; intro H; [constructor|].
  inversion H as [|? ? Hs Ha]; subst.
  destruct (p a); simpl; [|now apply IH].
  constructor; [now apply IH|].
  rewrite Forall_forall in *. intros y Hy.
  apply in_map_iff in Hy. destruct Hy as [x [<- Hx]].
  apply filter_In in Hx. apply Ha. apply in_map. apply Hx.
Qed.

Section GeneratorClaims.

Variable obj : Source.
Variable genome : Genome.
Variable start_attr : bool.

(** C1. Two overlapping regions [A = [0,100)] and [B = [50,150)] of one
    chromosome, fetched in that order: when the source answers with
    records at starts 10, 60, 90 for [A] and 60, 90, 120 for [B], the
    generator yields the three records of [A] and then only the record of
    [B] at 120, so the yielded starts are 10, 60, 90, 120. *)
Theorem overlap_example (A B : NamedInterval) (nm : string)
    (a1 a2 a3 b1 b2 b3 : Entry) :
  chrom_id A = chrom_id B ->
  start A = 0 -> end_ A = 100 -> start B = 50 -> end_ B = 150 ->
  chrom_name A genome = inr nm ->
  fetch obj nm 0 100 = inr {| items := [a1; a2; a3]; fault := None |} ->
  fetch obj nm 50 150 = inr {| items := [b1; b2; b3]; fault := None |} ->
  get_start start_attr a1 = inr 10 ->
  get_start start_attr a2 = inr 60 ->
  get_start start_attr a3 = inr 90 ->
  get_start start_attr b1 = inr 60 ->
  get_start start_attr b2 = inr 90 ->
  get_start start_attr b3 = inr 120 ->
  _fetch_regions_wo_duplicates obj [A; B] genome start_attr
  = {| items := [a1; a2; a3; b3]; fault := None |}
  /\ map (start_of start_attr) [a1; a2; a3; b3] = [10; 60; 90; 120].
Proof.
  intros Hc HsA HeA HsB HeB Hn HfA HfB H1 H2 H3 H4 H5 H6.
  assert (HnB : chrom_name B genome = inr nm).
  { unfold chrom_name in *. now rewrite <- Hc. }
  rewrite <- HsA, <- HeA in HfA. rewrite <- HsB, <- HeB in HfB.
  split.
  - unfold _fetch_regions_wo_duplicates. simpl.
    rewrite (region_step_spec obj genome start_attr _ _ _ _ Hn HfA).
    2:{ simpl. repeat constructor; eexists; eassumption. }
    simpl.
    rewrite (region_step_spec obj genome start_attr _ _ _ _ HnB HfB).
    2:{ simpl. repeat constructor; eexists; eassumption. }
    unfold kept, advance, same_chrom_as, reset_start, same_chrom_as. simpl.
    rewrite Hc, Nat.eqb_refl. simpl.
    rewrite (start_of_eq _ _ _ H3), (start_of_eq _ _ _ H4),
      (start_of_eq _ _ _ H5), (start_of_eq _ _ _ H6).
    reflexivity.
  - simpl.
    now rewrite (start_of_eq _ _ _ H1), (start_of_eq _ _ _ H2),
      (start_of_eq _ _ _ H3), (start_of_eq _ _ _ H6).
Qed.

Lemma last_entry_app es e : last_entry (es ++ [e]) = Some e.
Proof.
  induction es as [|x es IH]; simpl; [reflexivity|]. now rewrite IH.
Qed.

(** C3. Once the fetch of a region is exhausted, [prev_start] becomes the
    maximum of the value it had during the fetch (the value left by the
    earlier regions, or [-1] after a change of chromosome) and the start
    of the last record the fetch returned, whether that record was
    yielded or not; a fetch without records leaves it as it was. For a
    region on the chromosome of the previous one, [prev_start] does not
    decrease. *)
Theorem cursor_update (c : cursor) (r : NamedInterval) (nm : string)
    (st : stream) :
  chrom_name r genome = inr nm ->
  fetch obj nm (start r) (end_ r) = inr st ->
  fault st = None ->
  Forall (readable start_attr) (items st) ->
  exists c',
    snd (region_step obj genome start_attr c r) = inr c'
    /\ prev_chrom_id c' = Some (chrom_id r)
    /\ (items st = [] -> prev_start c' = reset_start c r)
    /\ (forall es e, items st = es ++ [e] ->
          prev_start c'
          = Z.max (reset_start c r) (start_of start_attr e))
    /\ (same_chrom_as c r = true -> prev_start c <= prev_start c').
Proof.
  intros Hn Hf Hfault Hr.
  rewrite (region_step_spec obj genome start_attr c r nm st Hn Hf Hr), Hfault.
  eexists. split; [reflexivity|]. simpl.
  split; [reflexivity|]. split; [|split].
  - now intros ->.
  - intros es e ->. now rewrite last_entry_app.
  - intro Hs. rewrite (reset_start_same _ _ Hs).
    destruct (last_entry (items st)); lia.
Qed.

(** C4. A region whose chromosome differs from the chromosome of the
    region before it (or that is the first region) is fetched with the
    cursor reset: every record its fetch returns is yielded, whatever
    was yielded for the earlier chromosomes. *)
Theorem chrom_switch_yields_all (pre post : list NamedInterval)
    (r : NamedInterval) (bs : list (list Entry)) (c : cursor)
    (nm : string) (st : stream) :
  run obj genome start_attr init_cursor pre = (bs, inr c) ->
  last_chrom pre <> Some (chrom_id r) ->
  chrom_name r genome = inr nm ->
  fetch obj nm (start r) (end_ r) = inr st ->
  reset_start c r = -1
  /\ exists rest,
       region_blocks obj (pre ++ r :: post) genome start_attr
       = bs ++ items st :: rest
       /\ items (_fetch_regions_wo_duplicates obj (pre ++ r :: post)
                   genome start_attr)
          = List.concat bs ++ items st ++ List.concat rest.
Proof.
  intros Hpre Hlast Hn Hf.
  assert (Hs : same_chrom_as c r = false).
  { destruct (same_chrom_as c r) eqn:E; [|reflexivity].
    apply (same_chrom_after obj genome start_attr pre c r bs Hpre) in E.
    contradiction. }
  split; [now apply reset_start_other|].
  destruct (run_reach obj genome start_attr pre r post bs c Hpre)
    as [rest [H1 H2]].
  rewrite (region_step_fst_other obj genome start_attr c r nm st Hs Hn Hf)
    in H1, H2.
  now exists rest.
Qed.

(** C9. Whether a record is yielded depends on the cursor left by the
    earlier regions only, never on the other records of the same fetch:
    on the chromosome of the previous region the block yielded is the
    fetch filtered by [prev_start < start], so records with equal starts
    past the cursor are all yielded; in the first region of a chromosome
    run the block is the whole fetch. *)
Theorem no_suppression_within_region (pre post : list NamedInterval)
    (r : NamedInterval) (bs : list (list Entry)) (c : cursor)
    (nm : string) (st : stream) :
  run obj genome start_attr init_cursor pre = (bs, inr c) ->
  chrom_name r genome = inr nm ->
  fetch obj nm (start r) (end_ r) = inr st ->
  Forall (readable start_attr) (items st) ->
  let block :=
    if same_chrom_as c r
    then filter (fun e => prev_start c <? start_of start_attr e) (items st)
    else items st in
  (forall e, In e (items st) -> prev_start c < start_of start_attr e ->
             In e block)
  /\ exists rest,
       region_blocks obj (pre ++ r :: post) genome start_attr
       = bs ++ block :: rest
       /\ items (_fetch_regions_wo_duplicates obj (pre ++ r :: post)
                   genome start_attr)
          = List.concat bs ++ block ++ List.concat rest.
Proof.
  intros Hpre Hn Hf Hr block. split.
  - intros e Hin Hlt. subst block.
    destruct (same_chrom_as c r); [|exact Hin].
    apply filter_In. split; [exact Hin|]. now apply Z.ltb_lt.
  - destruct (run_reach obj genome start_attr pre r post bs c Hpre)
      as [rest [H1 H2]].
    rewrite (region_step_spec obj genome start_attr c r nm st Hn Hf Hr)
      in H1, H2.
    now exists rest.
Qed.

(** *** Order of the output *)

Lemma tagged_nil rs : tagged start_attr rs [] = [].
Proof. now destruct rs. Qed.

Lemma run_cons_fst c r rest :
  fst (run obj genome start_attr c (r :: rest))
  = fst (region_step obj genome start_attr c r)
    :: match snd (region_step obj genome start_attr c r) with
       | inl _ => []
       | inr c' => fst (run obj genome start_attr c' rest)
       end.
Proof.
  cbn [run].
  destruct (region_step obj genome start_attr c r) as [b [e|c']];
    [reflexivity|].
  cbn [snd]. now destruct (run obj genome start_attr c' rest).
Qed.

Lemma last_entry_max es : forall l,
  StronglySorted Z.le (map (start_of start_attr) es) ->
  last_entry es = Some l ->
  Forall (fun e => start_of start_attr e <= start_of start_attr l) es.
Proof.
  induction es as [|x es IH]; simpl; intros l Hs Hl; [constructor|].
  inversion Hs as [|? ? Hs' Hx]; subst.
  destruct (last_entry es) as [y|] eqn:E; injection Hl as <-.
  - constructor; [|now apply IH].
    rewrite Forall_forall in Hx. apply Hx. apply in_map.
    now apply last_entry_in.
  - destruct es as [|z es]; [repeat constructor; lia|].
    simpl in E. destruct (last_entry es); discriminate.
Qed.

Lemma kept_incl c r es e : In e (kept start_attr c r es) -> In e es.
Proof.
  unfold kept. destruct (same_chrom_as c r); [|tauto].
  intro H. now apply filter_In in H.
Qed.

Lemma kept_past_cursor c r es e :
  In e (kept start_attr c r es) -> same_chrom_as c r = true ->
  prev_start c < start_of start_attr e.
Proof.
  unfold kept. intros H Hs. rewrite Hs in H.
  apply filter_In in H. now apply Z.ltb_lt.
Qed.

Lemma kept_sorted c r es :
  StronglySorted Z.le (map (start_of start_attr) es) ->
  StronglySorted Z.le (map (start_of start_attr) (kept start_attr c r es)).
Proof.
  unfold kept. destruct (same_chrom_as c r); [|tauto].
  apply StronglySorted_map_filter.
Qed.

Lemma tag_block_sorted (cid : nat) (b : list Entry) :
  StronglySorted Z.le (map (start_of start_attr) b) ->
  StronglySorted key_le (map (fun e => (cid, start_of start_attr e)) b).
Proof.
  induction b as [|e b IH]; simpl; intro H; [constructor|].
  inversion H as [|? ? Hs Ha]; subst. constructor; [now apply IH|].
  rewrite Forall_forall in *. intros y Hy.
  apply in_map_iff in Hy. destruct Hy as [x [<- Hx]].
  right. simpl. split; [reflexivity|]. apply Ha. now apply in_map.
Qed.

Lemma advance_bound c r es e :
  StronglySorted Z.le (map (start_of start_attr) es) ->
  In e es ->
  start_of start_attr e <= prev_start (advance start_attr c r es).
Proof.
  intros Hs Hin. unfold advance. simpl.
  destruct (last_entry es) as [l|] eqn:E.
  - pose proof (last_entry_max es l Hs E) as H.
    rewrite Forall_forall in H. specialize (H e Hin). lia.
  - destruct es as [|x es]; [destruct Hin|].
    simpl in E. destruct (last_entry es); discriminate.
Qed.

Lemma advance_mono c r es :
  same_chrom_as c r = true ->
  prev_start c <= prev_start (advance start_attr c r es).
Proof.
  intro Hs. unfold advance. simpl. rewrite (reset_start_same _ _ Hs).
  destruct (last_entry es); lia.
Qed.

Lemma run_sorted regions : forall c,
  sorted_source obj start_attr ->
  StronglySorted chrom_le regions ->
  Forall (fun r => forall p, prev_chrom_id c = Some p ->
                             (p <= chrom_id r)%nat) regions ->
  let t := tagged start_attr regions
             (fst (run obj genome start_attr c regions)) in
  StronglySorted key_le t
  /\ Forall (fun x => prev_chrom_id c = Some (fst x) ->
                      prev_start c < snd x) t
  /\ Forall (fun x => exists r, In r regions /\ fst x = chrom_id r) t.
Proof.
  induction regions as [|r rest IH]; intros c Hsrc Hsorted Hbound t.
  - subst t. simpl. repeat split; constructor.
  - inversion Hsorted as [|? ? Hs' Hr]; subst.
    inversion Hbound as [|? ? Hb Hb']; subst.
    subst t. rewrite run_cons_fst. cbn [tagged].
    destruct (chrom_name r genome) as [e|nm] eqn:Hn.
    { unfold region_step. rewrite Hn. simpl. rewrite tagged_nil.
      repeat split; constructor. }
    destruct (fetch obj nm (start r) (end_ r)) as [e|st] eqn:Hf.
    { unfold region_step. rewrite Hn, Hf. simpl. rewrite tagged_nil.
      repeat split; constructor. }
    destruct (Hsrc _ _ _ _ Hf) as [Hread Hst].
    rewrite (region_step_spec obj genome start_attr c r nm st Hn Hf Hread).
    cbn [fst snd].
    set (c1 := advance start_attr c r (items st)).
    set (T := tagged start_attr rest
                match match fault st with
                      | Some e => inl e
                      | None => inr c1
                      end with
                | inl _ => []
                | inr c' => fst (run obj genome start_attr c' rest)
                end).
    assert (HT : StronglySorted key_le T
                 /\ Forall (fun x => prev_chrom_id c1 = Some (fst x) ->
                                     prev_start c1 < snd x) T
                 /\ Forall (fun x => exists r0, In r0 rest
                                     /\ fst x = chrom_id r0) T).
    { subst T. destruct (fault st).
      - rewrite tagged_nil. repeat split; constructor.
      - apply IH; [exact Hsrc|exact Hs'|].
        rewrite Forall_forall in *. intros r0 Hin p Hp.
        subst c1. simpl in Hp. injection Hp as <-. now apply Hr. }
    destruct HT as [HT1 [HT2 HT3]].
    rewrite Forall_forall in HT2, HT3.
    split; [|split].
    + apply StronglySorted_app_intro.
      * apply tag_block_sorted. now apply kept_sorted.
      * exact HT1.
      * intros x y Hx Hy.
        apply in_map_iff in Hx. destruct Hx as [e [<- He]].
        destruct (HT3 y Hy) as [r0 [Hr0 Hy0]].
        rewrite Forall_forall in Hr. specialize (Hr r0 Hr0).
        unfold chrom_le in Hr. unfold key_le. simpl.
        destruct (Nat.eq_dec (chrom_id r) (fst y)) as [E|E]; [|left; lia].
        right. split; [exact E|].
        assert (H1 : prev_start c1 < snd y).
        { apply HT2; [exact Hy|]. subst c1. simpl. now rewrite E. }
        assert (H2 : start_of start_attr e <= prev_start c1).
        { apply advance_bound; [exact Hst|]. now apply kept_incl in He. }
        lia.
    + apply Forall_app. split.
      * apply Forall_forall. intros x Hx Hp.
        apply in_map_iff in Hx. destruct Hx as [e [<- He]]. simpl in *.
        apply (kept_past_cursor c r (items st) e He).
        unfold same_chrom_as. rewrite Hp. apply Nat.eqb_refl.
      * apply Forall_forall. intros y Hy Hp.
        destruct (HT3 y Hy) as [r0 [Hr0 Hy0]].
        rewrite Forall_forall in Hr. specialize (Hr r0 Hr0).
        unfold chrom_le in Hr. specialize (Hb _ Hp).
        assert (E : chrom_id r = fst y) by lia.
        assert (Hs : same_chrom_as c r = true).
        { unfold same_chrom_as. rewrite Hp, E. apply Nat.eqb_refl. }
        assert (H1 : prev_start c1 < snd y).
        { apply HT2; [exact Hy|]. subst c1. simpl. now rewrite E. }
        pose proof (advance_mono c r (items st) Hs). fold c1 in H. lia.
    + apply Forall_app. split.
      * apply Forall_forall. intros x Hx.
        apply in_map_iff in Hx. destruct Hx as [e [<- He]].
        exists r. split; [now left|reflexivity].
      * apply Forall_forall. intros y Hy.
        destruct (HT3 y Hy) as [r0 [Hr0 Hy0]].
        exists r0. split; [now right|exact Hy0].
Qed.

Lemma run_length regions : forall c,
  (List.length (fst (run obj genome start_attr c regions))
   <= List.length regions)%nat.
Proof.
  induction regions as [|r rest IH]; intro c; [simpl; lia|].
  rewrite run_cons_fst. simpl.
  destruct (snd (region_step obj genome start_attr c r)) as [e|c'].
  - simpl. lia.
  - specialize (IH c'). lia.
Qed.

Lemma tagged_starts regions : forall blocks,
  (List.length blocks <= List.length regions)%nat ->
  map snd (tagged start_attr regions blocks)
  = map (start_of start_attr) (List.concat blocks).
Proof.
  induction regions as [|r rest IH]; intros [|b bs] Hlen; simpl in *;
    try reflexivity; [lia|].
  rewrite !map_app, map_map. simpl. rewrite IH by lia. reflexivity.
Qed.

Lemma interval_le_chrom a b : interval_le a b -> chrom_le a b.
Proof.
  unfold interval_le, interval_ltb, chrom_le. intro H.
  apply orb_false_iff in H. destruct H as [H _].
  apply Nat.ltb_ge in H. exact H.
Qed.

Lemma sorted_by_chrom regions :
  StronglySorted interval_le regions -> StronglySorted chrom_le regions.
Proof.
  induction 1 as [|a l Hs IH Ha]; constructor; [exact IH|].
  eapply Forall_impl; [|exact Ha]. intros b. apply interval_le_chrom.
Qed.

(** C2. For regions sorted by [(chrom_id, start, end)] without overlaps
    and a source whose every range query gives non-decreasing starts, the
    records yielded, each taken with the chromosome of the region that
    fetched it, come in non-decreasing order of (chromosome id, start):
    chromosome ids do not decrease along the output and starts do not
    decrease within a chromosome. *)
Theorem output_ordered (regions : list NamedInterval) :
  StronglySorted interval_le regions ->
  ForallOrdPairs (fun a b => ~ overlaps a b) regions ->
  sorted_source obj start_attr ->
  let out := _fetch_regions_wo_duplicates obj regions genome start_attr in
  let blocks := region_blocks obj regions genome start_attr in
  items out = List.concat blocks
  /\ map snd (tagged start_attr regions blocks)
     = map (start_of start_attr) (items out)
  /\ StronglySorted key_le (tagged start_attr regions blocks).
Proof.
  intros Hsorted _ Hsrc out blocks.
  assert (Hout : items out = List.concat blocks).
  { subst out blocks. unfold _fetch_regions_wo_duplicates, region_blocks.
    now destruct (run obj genome start_attr init_cursor regions). }
  split; [exact Hout|]. split.
  - rewrite Hout. apply tagged_starts. apply run_length.
  - apply (run_sorted regions init_cursor Hsrc).
    + now apply sorted_by_chrom.
    + apply Forall_forall. intros r _ p Hp. discriminate.
Qed.

(** *** Regions whose fetch is empty *)

Lemma fetch_unfold regions :
  _fetch_regions_wo_duplicates obj regions genome start_attr
  = {| items := List.concat
                  (fst (run obj genome start_attr init_cursor regions));
       fault := match snd (run obj genome start_attr init_cursor regions)
                with
                | inl e => Some e
                | inr _ => None
                end |}.
Proof.
  unfold _fetch_regions_wo_duplicates.
  now destruct (run obj genome start_attr init_cursor regions).
Qed.

Lemma region_step_ext c1 c2 r :
  same_chrom_as c1 r = same_chrom_as c2 r ->
  reset_start c1 r = reset_start c2 r ->
  region_step obj genome start_attr c1 r
  = region_step obj genome start_attr c2 r.
Proof. unfold region_step. now intros -> ->. Qed.

Lemma scan_natural es :
  Forall (fun x => exists z, get_start start_attr x = inr z /\ 0 <= z) es ->
  scan start_attr true (-1) es = (es, None).
Proof.
  induction 1 as [|e es [z [Hz Hpos]] _ IH]; simpl; [reflexivity|].
  rewrite Hz, IH.
  destruct (Z.leb_spec z (-1)); [lia|reflexivity].
Qed.

Lemma region_step_fresh c1 c2 r :
  natural_source obj start_attr ->
  same_chrom_as c1 r = true -> prev_start c1 = -1 ->
  same_chrom_as c2 r = false ->
  region_step obj genome start_attr c1 r
  = region_step obj genome start_attr c2 r.
Proof.
  intros Hnat H1 Hp H2. unfold region_step, reset_start.
  rewrite H1, H2, Hp.
  destruct (chrom_name r genome) as [e|nm]; [reflexivity|].
  destruct (fetch obj nm (start r) (end_ r)) as [e|st] eqn:Hf;
    [reflexivity|].
  now rewrite (scan_natural _ (Hnat _ _ _ _ Hf)), scan_other_chrom.
Qed.

Lemma empty_fetch_step c e nm :
  chrom_name e genome = inr nm ->
  fetch obj nm (start e) (end_ e) = inr {| items := []; fault := None |} ->
  region_step obj genome start_attr c e
  = ([], inr {| prev_chrom_id := Some (chrom_id e);
                prev_start := reset_start c e |}).
Proof.
  intros Hn Hf. unfold region_step. rewrite Hn, Hf. simpl.
  now destruct (same_chrom_as c e).
Qed.

Lemma run_skip e post nm c :
  chrom_name e genome = inr nm ->
  fetch obj nm (start e) (end_ e) = inr {| items := []; fault := None |} ->
  natural_source obj start_attr ->
  Forall (chrom_le e) post ->
  (forall p, prev_chrom_id c = Some p -> (p <= chrom_id e)%nat) ->
  fst (run obj genome start_attr c (e :: post))
  = [] :: fst (run obj genome start_attr c post)
  /\ (forall x, snd (run obj genome start_attr c (e :: post)) = inl x
                <-> snd (run obj genome start_attr c post) = inl x).
Proof.
  intros Hn Hf Hnat Hpost Hc. cbn [run].
  rewrite (empty_fetch_step c e nm Hn Hf).
  set (ce := {| prev_chrom_id := Some (chrom_id e);
                prev_start := reset_start c e |}).
  destruct (same_chrom_as c e) eqn:Hs.
  - assert (E : ce = c).
    { subst ce. rewrite (reset_start_same _ _ Hs).
      unfold same_chrom_as in Hs. destruct c as [[p|] ps]; simpl in *;
        [|discriminate].
      apply Nat.eqb_eq in Hs. now subst. }
    rewrite E. destruct (run obj genome start_attr c post). simpl.
    split; [reflexivity|tauto].
  - destruct post as [|r rest].
    + simpl. split; [reflexivity|]. intro x. split; discriminate.
    + assert (E : region_step obj genome start_attr ce r
                  = region_step obj genome start_attr c r).
      { inversion Hpost as [|? ? Hr _]; subst. unfold chrom_le in Hr.
        destruct (same_chrom_as ce r) eqn:Hr1.
        - apply region_step_fresh; [exact Hnat|exact Hr1| |].
          + subst ce. simpl. now apply reset_start_other.
          + unfold same_chrom_as in *. subst ce. simpl in Hr1.
            apply Nat.eqb_eq in Hr1.
            destruct (prev_chrom_id c) as [p|]; [|reflexivity].
            now rewrite Hr1.
        - apply region_step_ext.
          + rewrite Hr1. symmetry.
            unfold same_chrom_as in *. subst ce. simpl in Hr1.
            destruct (prev_chrom_id c) as [p|] eqn:Hp; [|reflexivity].
            specialize (Hc p eq_refl).
            apply Nat.eqb_neq in Hr1, Hs. apply Nat.eqb_neq. lia.
          + rewrite (reset_start_other _ _ Hr1).
            unfold reset_start.
            replace (same_chrom_as c r) with false; [reflexivity|].
            symmetry.
            unfold same_chrom_as in *. subst ce. simpl in Hr1.
            destruct (prev_chrom_id c) as [p|] eqn:Hp; [|reflexivity].
            specialize (Hc p eq_refl).
            apply Nat.eqb_neq in Hr1, Hs. apply Nat.eqb_neq. lia. }
      cbn [run]. rewrite E.
      destruct (region_step obj genome start_attr c r) as [b [x|c']].
      * simpl. split; [reflexivity|tauto].
      * destruct (run obj genome start_attr c' rest). simpl.
        split; [reflexivity|tauto].
Qed.

Lemma last_chrom_in l : forall p,
  last_chrom l = Some p -> exists r, In r l /\ chrom_id r = p.
Proof.
  induction l as [|r l IH]; simpl; intro p; [discriminate|].
  destruct (last_chrom l) as [q|].
  - intros [= <-]. destruct (IH q eq_refl) as [r0 [H1 H2]].
    exists r0. split; [now right|exact H2].
  - intros [= <-]. exists r. split; [now left|reflexivity].
Qed.

Lemma fault_eq (r1 r2 : result cursor) :
  (forall x, r1 = inl x <-> r2 = inl x) ->
  match r1 with inl e => Some e | inr _ => None end
  = match r2 with inl e => Some e | inr _ => None end.
Proof.
  intro H. destruct r1 as [x|c1], r2 as [y|c2]; try reflexivity.
  - destruct (H x) as [H1 _]. specialize (H1 eq_refl). now injection H1 as <-.
  - destruct (H x) as [H1 _]. specialize (H1 eq_refl). discriminate.
  - destruct (H y) as [_ H1]. specialize (H1 eq_refl). discriminate.
Qed.

(** C5, as the code has it. The generator has no case for empty regions:
    it queries the source and yields what comes back. When the query of
    a region with [start = end] returns no records, that region yields
    nothing and leaves the cursor at the region's chromosome with the
    value [prev_start] had during the fetch, which is the cursor itself
    when the region is on the chromosome of the previous one (on a new
    chromosome the cursor is reset as for any region). In a sorted region
    sequence, for a source whose records have readable starts that are
    not negative, the output is the output without that region. *)
Theorem empty_region_skipped (pre post : list NamedInterval)
    (e : NamedInterval) (nm : string) :
  StronglySorted interval_le (pre ++ e :: post) ->
  start e = end_ e ->
  chrom_name e genome = inr nm ->
  fetch obj nm (start e) (end_ e) = inr {| items := []; fault := None |} ->
  natural_source obj start_attr ->
  (forall c, region_step obj genome start_attr c e
             = ([], inr {| prev_chrom_id := Some (chrom_id e);
                           prev_start := reset_start c e |}))
  /\ (forall c, prev_chrom_id c = Some (chrom_id e) ->
                region_step obj genome start_attr c e = ([], inr c))
  /\ _fetch_regions_wo_duplicates obj (pre ++ e :: post) genome start_attr
     = _fetch_regions_wo_duplicates obj (pre ++ post) genome start_attr.
Proof.
  intros Hsorted _ Hn Hf Hnat. split; [|split].
  - intro c. now apply empty_fetch_step with (nm := nm).
  - intros c Hc. rewrite (empty_fetch_step c e nm Hn Hf).
    unfold reset_start, same_chrom_as. rewrite Hc, Nat.eqb_refl.
    destruct c as [pc ps]. simpl in *. now subst.
  - apply sorted_by_chrom in Hsorted.
    apply StronglySorted_app_elim in Hsorted.
    destruct Hsorted as [_ [He Hpre]].
    inversion He as [|? ? _ Hpost]; subst.
    rewrite !fetch_unfold, !run_app.
    destruct (run obj genome start_attr init_cursor pre) as [bs [x|c]] eqn:Hp;
      [reflexivity|].
    assert (Hc : forall p, prev_chrom_id c = Some p -> (p <= chrom_id e)%nat).
    { intros p Hpc. apply run_last_chrom in Hp. rewrite Hp in Hpc.
      destruct (last_chrom pre) as [q|] eqn:Hq; [|discriminate].
      injection Hpc as ->.
      destruct (last_chrom_in pre p Hq) as [r [Hin <-]].
      apply (Hpre r e Hin). now left. }
    destruct (run_skip e post nm c Hn Hf Hnat Hpost Hc) as [H1 H2].
    cbn [fst snd]. rewrite H1, (fault_eq _ _ H2).
    f_equal. rewrite !concat_app. reflexivity.
Qed.

End GeneratorClaims.

(** ** The generator on concrete sources *)

Module GeneratorExamples.

Import Fixture.
Open Scope string_scope.
Open Scope list_scope.
Open Scope Z_scope.

Lemma table_fetch t nm s e st :
  fetch (table t) nm s e = inr st ->
  items st = [] \/ exists q, In q t /\ items st = snd q.
Proof.
  intros [= <-]. simpl.
  induction t as [|[[[n s'] e'] es] t IH]; simpl; [now left|].
  destruct (String.eqb n nm && (s' =? s)%Z && (e' =? e)%Z).
  - right. exists (n, s', e', es). split; [now left|reflexivity].
  - destruct IH as [IH|[q [Hq IH]]]; [now left|].
    right. exists q. split; [now right|exact IH].
Qed.

Lemma table_sorted_source sa t :
  Forall (fun q => Forall (readable sa) (snd q)
                   /\ StronglySorted Z.le (map (start_of sa) (snd q))) t ->
  sorted_source (table t) sa.
Proof.
  intros H nm s e st Hf.
  destruct (table_fetch t nm s e st Hf) as [E|[q [Hq E]]]; rewrite E.
  - split; constructor.
  - rewrite Forall_forall in H. now apply H.
Qed.

Lemma table_natural_source sa t :
  Forall (fun q => Forall (fun x => exists z, get_start sa x = inr z
                                              /\ 0 <= z) (snd q)) t ->
  natural_source (table t) sa.
Proof.
  intros H nm s e st Hf.
  destruct (table_fetch t nm s e st Hf) as [E|[q [Hq E]]]; rewrite E.
  - constructor.
  - rewrite Forall_forall in H. now apply H.
Qed.

Definition overlap_source : Source :=
  table [("chr1", 0, 100, [rec 10 "10"; rec 60 "60"; rec 90 "90"]);
         ("chr1", 50, 150, [rec 60 "60"; rec 90 "90"; rec 120 "120"])].

Lemma overlap_example_witness :
  _fetch_regions_wo_duplicates overlap_source [iv 0 0 100; iv 0 50 150]
    genome false
  = {| items := [rec 10 "10"; rec 60 "60"; rec 90 "90"; rec 120 "120"];
       fault := None |}
  /\ map (start_of false)
         [rec 10 "10"; rec 60 "60"; rec 90 "90"; rec 120 "120"]
     = [10; 60; 90; 120].
Proof.
  apply (overlap_example overlap_source genome false
           (iv 0 0 100) (iv 0 50 150) "chr1"
           (rec 10 "10") (rec 60 "60") (rec 90 "90")
           (rec 60 "60") (rec 90 "90") (rec 120 "120")); reflexivity.
Defined.

Definition three_region_source : Source :=
  table [("chr1", 0, 100, [rec 10 "10"; rec 60 "60"]);
         ("chr1", 100, 200, [rec 60 "60"; rec 150 "150"]);
         ("chr2", 0, 50, [rec 5 "5"; rec 5 "5"; rec 20 "20"])].

Lemma output_ordered_witness :
  let regions := [iv 0 0 100; iv 0 100 200; iv 1 0 50] in
  let out :=
    _fetch_regions_wo_duplicates three_region_source regions genome true in
  let blocks := region_blocks three_region_source regions genome true in
  items out = List.concat blocks
  /\ map snd (tagged true regions blocks) = map (start_of true) (items out)
  /\ StronglySorted key_le (tagged true regions blocks).
Proof.
  apply (output_ordered three_region_source genome true).
  - repeat constructor.
  - repeat constructor; unfold overlaps; simpl; lia.
  - apply table_sorted_source. simpl.
    repeat (apply Forall_cons || apply Forall_nil || split
            || apply SSorted_cons || apply SSorted_nil);
      try (eexists; reflexivity); unfold start_of, rec; simpl; lia.
Defined.

Lemma cursor_update_witness :
  exists c',
    snd (region_step overlap_source genome true
           {| prev_chrom_id := Some 0%nat; prev_start := 90 |}
           (iv 0 50 150)) = inr c'
    /\ prev_chrom_id c' = Some 0%nat
    /\ (items {| items := [rec 60 "60"; rec 90 "90"; rec 120 "120"];
                 fault := None |} = [] ->
        prev_start c' = 90)
    /\ (forall es e,
          items {| items := [rec 60 "60"; rec 90 "90"; rec 120 "120"];
                   fault := None |} = es ++ [e] ->
          prev_start c' = Z.max 90 (start_of true e))
    /\ (true = true -> 90 <= prev_start c').
Proof.
  apply (cursor_update overlap_source genome true
           {| prev_chrom_id := Some 0%nat; prev_start := 90 |}
           (iv 0 50 150) "chr1"
           {| items := [rec 60 "60"; rec 90 "90"; rec 120 "120"];
              fault := None |}).
  - reflexivity.
  - reflexivity.
  - reflexivity.
  - repeat constructor; eexists; reflexivity.
Defined.

(** A record at start 5 on each of the two chromosomes. *)
Definition two_chrom_source : Source :=
  table [("chr1", 0, 100, [rec 5 "5"]); ("chr2", 0, 100, [rec 5 "5"])].

Lemma chrom_switch_witness :
  reset_start {| prev_chrom_id := Some 0%nat; prev_start := 5 |}
    (iv 1 0 100) = -1
  /\ exists rest,
       region_blocks two_chrom_source ([iv 0 0 100] ++ iv 1 0 100 :: [])
         genome true
       = [[rec 5 "5"]] ++ [rec 5 "5"] :: rest
       /\ items (_fetch_regions_wo_duplicates two_chrom_source
                   ([iv 0 0 100] ++ iv 1 0 100 :: []) genome true)
          = List.concat [[rec 5 "5"]] ++ [rec 5 "5"] ++ List.concat rest.
Proof.
  apply (chrom_switch_yields_all two_chrom_source genome true
           [iv 0 0 100] [] (iv 1 0 100) [[rec 5 "5"]]
           {| prev_chrom_id := Some 0%nat; prev_start := 5 |} "chr2"
           {| items := [rec 5 "5"]; fault := None |}).
  - reflexivity.
  - discriminate.
  - reflexivity.
  - reflexivity.
Defined.

(** Two records at the same start past the cursor, and one before it. *)
Definition equal_starts_source : Source :=
  table [("chr1", 0, 100, [rec 10 "10"; rec 90 "90"]);
         ("chr1", 50, 150, [rec 95 "95"; rec 95 "95"; rec 60 "60"])].

Lemma no_suppression_witness :
  let block := [rec 95 "95"; rec 95 "95"] in
  (forall e, In e [rec 95 "95"; rec 95 "95"; rec 60 "60"] ->
             90 < start_of true e -> In e block)
  /\ exists rest,
       region_blocks equal_starts_source ([iv 0 0 100] ++ iv 0 50 150 :: [])
         genome true
       = [[rec 10 "10"; rec 90 "90"]] ++ block :: rest
       /\ items (_fetch_regions_wo_duplicates equal_starts_source
                   ([iv 0 0 100] ++ iv 0 50 150 :: []) genome true)
          = List.concat [[rec 10 "10"; rec 90 "90"]] ++ block
            ++ List.concat rest.
Proof.
  apply (no_suppression_within_region equal_starts_source genome true
           [iv 0 0 100] [] (iv 0 50 150) [[rec 10 "10"; rec 90 "90"]]
           {| prev_chrom_id := Some 0%nat; prev_start := 90 |} "chr1"
           {| items := [rec 95 "95"; rec 95 "95"; rec 60 "60"];
              fault := None |}).
  - reflexivity.
  - reflexivity.
  - reflexivity.
  - repeat constructor; eexists; reflexivity.
Defined.

(** The empty region [chr2:[30,30)] between a region of [chr1] and a
    region of [chr2]. *)
Definition gap_source : Source :=
  table [("chr1", 0, 100, [rec 90 "90"]);
         ("chr2", 30, 50, [rec 35 "35"; rec 40 "40"])].

Lemma empty_region_skipped_witness :
  (forall c, region_step gap_source genome false c (iv 1 30 30)
             = ([], inr {| prev_chrom_id := Some 1%nat;
                           prev_start := reset_start c (iv 1 30 30) |}))
  /\ (forall c, prev_chrom_id c = Some 1%nat ->
                region_step gap_source genome false c (iv 1 30 30)
                = ([], inr c))
  /\ _fetch_regions_wo_duplicates gap_source
       ([iv 0 0 100] ++ iv 1 30 30 :: [iv 1 30 50]) genome false
     = _fetch_regions_wo_duplicates gap_source
         ([iv 0 0 100] ++ [iv 1 30 50]) genome false.
Proof.
  apply (empty_region_skipped gap_source genome false
           [iv 0 0 100] [iv 1 30 50] (iv 1 30 30) "chr2").
  - repeat constructor.
  - reflexivity.
  - reflexivity.
  - reflexivity.
  - apply table_natural_source.
    repeat constructor; eexists; (split; [reflexivity|lia]).
Defined.

(** A source that answers the query of a point with the record that spans
    it, and a source with a record at start [-1]. *)
Definition spanning_source : Source :=
  table [("chr1", 0, 100, [rec 90 "90"]);
         ("chr2", 30, 30, [rec 25 "25"])].

Definition telomere_source : Source :=
  table [("chr1", 0, 100, [rec 90 "90"]);
         ("chr2", 30, 50, [rec (-1) "-1"; rec 40 "40"])].

(** C5, as stated, fails. The regions [chr1:[0,100)], [chr2:[30,30)],
    [chr2:[30,50)] are sorted and the second is empty, and
    - over [spanning_source] the empty region yields a record;
    - over [telomere_source] the empty region yields nothing, yet the
      cursor after it is not the cursor before it, and the output with
      the empty region differs from the output without it. *)
Lemma empty_region_counterexample :
  let A := iv 0 0 100 in
  let E := iv 1 30 30 in
  let B := iv 1 30 50 in
  StronglySorted interval_le [A; E; B]
  /\ start E = end_ E
  /\ region_blocks spanning_source [A; E; B] genome true
     = [[rec 90 "90"]; [rec 25 "25"]; []]
  /\ region_blocks telomere_source [A; E; B] genome true
     = [[rec 90 "90"]; []; [rec 40 "40"]]
  /\ snd (run telomere_source genome true init_cursor [A])
     = inr {| prev_chrom_id := Some 0%nat; prev_start := 90 |}
  /\ snd (run telomere_source genome true init_cursor [A; E])
     = inr {| prev_chrom_id := Some 1%nat; prev_start := -1 |}
  /\ items (_fetch_regions_wo_duplicates telomere_source [A; E; B]
              genome true)
     = [rec 90 "90"; rec 40 "40"]
  /\ items (_fetch_regions_wo_duplicates telomere_source [A; B]
              genome true)
     = [rec 90 "90"; rec (-1) "-1"; rec 40 "40"]
  /\ _fetch_regions_wo_duplicates telomere_source [A; E; B] genome true
     <> _fetch_regions_wo_duplicates telomere_source [A; B] genome true.
Proof.
  repeat split; try reflexivity; [repeat constructor|].
  intro H. vm_compute in H. discriminate H.
Qed.

End GeneratorExamples.

(** * Properties of the region set builder *)

Section IntervalOrder.

Lemma interval_ltb_spec a b :
  interval_ltb a b = true <->
  ((chrom_id a < chrom_id b)%nat
   \/ (chrom_id a = chrom_id b
       /\ (start a < start b \/ (start a = start b /\ end_ a < end_ b)))).
Proof.
  unfold interval_ltb.
  rewrite orb_true_iff, andb_true_iff, orb_true_iff, andb_true_iff.
  rewrite Nat.ltb_lt, Nat.eqb_eq, !Z.ltb_lt, Z.eqb_eq. reflexivity.
Qed.

Lemma interval_le_spec a b :
  interval_le a b <->
  ((chrom_id a < chrom_id b)%nat
   \/ (chrom_id a = chrom_id b
       /\ (start a < start b \/ (start a = start b /\ end_ a <= end_ b)))).
Proof.
  unfold interval_le. rewrite <- not_true_iff_false, interval_ltb_spec. lia.
Qed.

Lemma interval_le_trans a b c :
  interval_le a b -> interval_le b c -> interval_le a c.
Proof. rewrite !interval_le_spec. lia. Qed.

Lemma interval_ltb_le a b : interval_ltb a b = true -> interval_le a b.
Proof. rewrite interval_ltb_spec, interval_le_spec. lia. Qed.

Lemma insert_interval_in x l y :
  In y (insert_interval x l) <-> y = x \/ In y l.
Proof.
  induction l as [|z l IH]; simpl; [intuition|].
  destruct (interval_ltb z x); simpl; rewrite ?IH; intuition.
Qed.

Lemma insert_interval_sorted x l :
  StronglySorted interval_le l ->
  StronglySorted interval_le (insert_interval x l).
Proof.
  induction 1 as [|y l Hs IH Hy]; simpl; [repeat constructor|].
  destruct (interval_ltb y x) eqn:E.
  - constructor; [exact IH|].
    apply Forall_forall. intros z Hz. apply insert_interval_in in Hz.
    destruct Hz as [->|Hz]; [now apply interval_ltb_le|].
    rewrite Forall_forall in Hy. now apply Hy.
  - constructor; [now constructor|].
    constructor; [exact E|].
    eapply Forall_impl; [|exact Hy].
    intros z Hz. now apply interval_le_trans with y.
Qed.

Lemma sort_intervals_sorted l : StronglySorted interval_le (sort_intervals l).
Proof.
  induction l as [|x l IH]; simpl; [constructor|].
  now apply insert_interval_sorted.
Qed.

Lemma insert_interval_perm x l : Permutation (x :: l) (insert_interval x l).
Proof.
  induction l as [|y l IH]; simpl; [reflexivity|].
  destruct (interval_ltb y x); [|reflexivity].
  rewrite perm_swap. now constructor.
Qed.

Lemma sort_intervals_perm l : Permutation l (sort_intervals l).
Proof.
  induction l as [|x l IH]; simpl; [constructor|].
  rewrite <- insert_interval_perm. now constructor.
Qed.

(** Sorting a sorted list changes nothing. *)
Lemma sort_intervals_id l :
  StronglySorted interval_le l -> sort_intervals l = l.
Proof.
  induction 1 as [|x l Hs IH Hx]; simpl; [reflexivity|].
  rewrite IH. destruct l as [|y l]; simpl; [reflexivity|].
  inversion Hx as [|? ? Hxy _]; subst. unfold interval_le in Hxy.
  now rewrite Hxy.
Qed.

End IntervalOrder.

Section MapResult.

Context {A B : Type} (f : A -> result B).


Lemma map_result_fail (l : list A) (a : A) (e : exn) :
  In a l -> f a = inl e -> exists e', map_result f l = inl e'.
Proof.
  induction l as [|x l IH]; simpl; [intros []|].
  intros [->|Hin] Ha.
  - rewrite Ha. now exists e.
  - destruct (f x) as [e0|b]; simpl; [now exists e0|].
    destruct (IH Hin Ha) as [e' ->]. now exists e'.
Qed.

Lemma map_result_inv (l : list A) (bs : list B) :
  map_result f l = inr bs -> Forall2 (fun a b => f a = inr b) l bs.
Proof.
  revert bs. induction l as [|a l IH]; simpl; intro bs.
  - intros [= <-]. constructor.
  - destruct (f a) as [e|b] eqn:Ha; simpl; [discriminate|].
    destruct (map_result f l) as [e|bs'] eqn:Hl; simpl; [discriminate|].
    intros [= <-]. constructor; [exact Ha|now apply IH].
Qed.

End MapResult.

Section BuilderClaims.

Variable parse : Parser.
Variable genome : Genome.

Lemma whole_genome_from pre l :
  chroms genome = pre ++ l ->
  map_result
    (fun p : nat * Z =>
       nm <- genome_chrom_name genome (fst p) ;;
       mk_interval (fst p) 0 (snd p) genome (Some nm))
    (enumerate_from (List.length pre)
       (map (fun p : string * N => Z.of_N (snd p)) l))
  = ok (full_chromosomes_from (List.length pre) l).
Proof.
  revert pre. induction l as [|[nm len] l IH]; intros pre Hg; simpl;
    [reflexivity|].
  unfold genome_chrom_name at 1.
  rewrite Hg, nth_error_app2, Nat.sub_diag by lia. simpl.
  unfold mk_interval at 1.
  destruct (Z.ltb_spec (Z.of_N len) 0) as [Hneg|_]; [lia|]. simpl.
  specialize (IH (pre ++ [(nm, len)])).
  rewrite length_app, Nat.add_comm in IH. simpl in IH.
  rewrite IH; [reflexivity|]. now rewrite <- app_assoc.
Qed.

Lemma whole_genome_spec : whole_genome genome = ok (full_chromosomes genome).
Proof. exact (whole_genome_from [] (chroms genome) eq_refl). Qed.

Lemma full_chromosomes_from_ids l : forall i,
  Forall (fun iv => (i <= chrom_id iv)%nat) (full_chromosomes_from i l).
Proof.
  induction l as [|[nm len] l IH]; intro i; simpl; constructor.
  - simpl. lia.
  - eapply Forall_impl; [|exact (IH (S i))]. simpl. intros; lia.
Qed.

Lemma full_chromosomes_from_sorted l : forall i,
  StronglySorted interval_le (full_chromosomes_from i l).
Proof.
  induction l as [|[nm len] l IH]; intro i; simpl; constructor.
  - apply IH.
  - eapply Forall_impl; [|exact (full_chromosomes_from_ids l (S i))].
    intros iv Hiv. cbv beta in Hiv. apply interval_le_spec. simpl. lia.
Qed.

Lemma whole_genome_sort (sort : bool) :
  (if sort then sort_intervals (full_chromosomes genome)
   else full_chromosomes genome) = full_chromosomes genome.
Proof.
  destruct sort; [|reflexivity].
  apply sort_intervals_id, full_chromosomes_from_sorted.
Qed.

(** C6. With neither an explicit region list nor a region file (each
    absent or empty), [fetch_iterator] opens no file and returns what the
    source's [fetch()] without arguments returns, whatever the other
    arguments are. *)
Theorem no_region_fast_path (fs : FileSystem) (obj : Source)
    (b1 b2 no_duplicates start_attr : bool) :
  fetch_iterator parse fs obj
    {| regions := if b1 then None else Some [];
       regions_file := if b2 then None else Some EmptyString |}
    genome no_duplicates start_attr
  = {| opened := []; value := fetch_all obj |}.
Proof. now destruct b1, b2. Qed.

(** C7. The builder takes one path. A non-empty explicit list is used
    alone: no file is opened and the result does not depend on the region
    file or on the file system. Without a list, a region file is opened
    and its lines alone give the result. With neither, the result is one
    full-chromosome interval per chromosome in genome order, sorted or
    not. *)
Theorem selection_paths (sort : bool) :
  (forall (fs fs' : FileSystem) r rs f f',
      get_regions parse fs {| regions := Some (r :: rs); regions_file := f |}
        genome sort
      = get_regions parse fs'
          {| regions := Some (r :: rs); regions_file := f' |} genome sort
      /\ get_regions parse fs
           {| regions := Some (r :: rs); regions_file := f |} genome sort
         = {| opened := [];
              value :=
                intervals <- map_result (region_of_string parse genome)
                               (r :: rs) ;;
                ok (if sort then sort_intervals intervals
                    else intervals) |})
  /\ (forall (fs : FileSystem) (b : bool) c p,
         get_regions parse fs
           {| regions := if b then None else Some [];
              regions_file := Some (String c p) |} genome sort
         = {| opened := [String c p];
              value :=
                intervals <- (lines <- fs (String c p) ;;
                              intervals_of_lines genome lines) ;;
                ok (if sort then sort_intervals intervals
                    else intervals) |})
  /\ (forall (fs : FileSystem) (b1 b2 : bool),
         get_regions parse fs
           {| regions := if b1 then None else Some [];
              regions_file := if b2 then None else Some EmptyString |}
           genome sort
         = {| opened := []; value := ok (full_chromosomes genome) |}).
Proof.
  split; [|split].
  - intros fs fs' r rs f f'. split; reflexivity.
  - intros fs b c p. now destruct b.
  - intros fs b1 b2.
    assert (E : get_regions parse fs
                  {| regions := if b1 then None else Some [];
                     regions_file := if b2 then None else Some EmptyString |}
                  genome sort
                = {| opened := [];
                     value :=
                       intervals <- whole_genome genome ;;
                       ok (if sort then sort_intervals intervals
                           else intervals) |})
      by now destruct b1, b2.
    rewrite E, whole_genome_spec. simpl. unfold ok.
    now rewrite whole_genome_sort.
Qed.

(** *** Region files *)







Lemma get_regions_sort (fs : FileSystem) (args : Args) :
  value (get_regions parse fs args genome true)
  = (intervals <- value (get_regions parse fs args genome false) ;;
     ok (sort_intervals intervals)).
Proof.
  unfold get_regions.
  destruct (has_regions args); cbn [value].
  - now destruct (map_result _ _).
  - destruct (has_regions_file args); cbn [value].
    + destruct (fs (regions_path args)); cbn [bind]; [reflexivity|].
      now destruct (intervals_of_lines genome l).
    + now destruct (whole_genome genome).
Qed.


(** C10. Whenever [fetch_iterator] does not take the path without
    regions, it builds the region set with sorting on before any fetch:
    a failure of the build is the failure of the call, and otherwise the
    regions handed to the deduplicating generator, or to the plain
    concatenation, are the selected intervals arranged in non-decreasing
    order of [(chrom_id, start, end)], whatever order they were given
    in. *)
Theorem regions_sorted_before_fetch (fs : FileSystem) (obj : Source)
    (args : Args) (no_duplicates start_attr : bool) :
  has_regions args = true \/ has_regions_file args = true ->
  let built := get_regions parse fs args genome true in
  let it :=
    fetch_iterator parse fs obj args genome no_duplicates start_attr in
  opened it = opened built
  /\ (forall e, value built = inl e -> value it = inl e)
  /\ (forall regions, value built = inr regions ->
        StronglySorted interval_le regions
        /\ (exists raw,
               value (get_regions parse fs args genome false) = inr raw
               /\ Permutation raw regions)
        /\ value it
           = if no_duplicates
             then inr (_fetch_regions_wo_duplicates obj regions genome
                         start_attr)
             else (ss <- map_result (fetch_region obj genome) regions ;;
                   ok (chain ss))).
Proof.
  intros Hsel built it.
  assert (Hit : it = {| opened := opened built;
                        value :=
                          regions <- value built ;;
                          if negb no_duplicates then
                            ss <- map_result (fetch_region obj genome)
                                    regions ;;
                            ok (chain ss)
                          else ok (_fetch_regions_wo_duplicates obj regions
                                     genome start_attr) |}).
  { subst it built. unfold fetch_iterator.
    destruct Hsel as [-> | ->]; [reflexivity|].
    now rewrite andb_false_r. }
  rewrite Hit. cbn [opened value].
  split; [reflexivity|]. split.
  - now intros e ->.
  - intros regions Hr. rewrite Hr. cbn [bind].
    subst built. rewrite get_regions_sort in Hr.
    destruct (value (get_regions parse fs args genome false)) as [e|raw];
      cbn [bind] in Hr; [discriminate|].
    injection Hr as <-.
    split; [apply sort_intervals_sorted|]. split.
    + exists raw. split; [reflexivity|apply sort_intervals_perm].
    + now destruct no_duplicates.
Qed.

End BuilderClaims.

(** ** The builder on concrete region files *)

Module BuilderExamples.

Import Fixture.
Open Scope string_scope.
Open Scope list_scope.
Open Scope Z_scope.

Definition bed_lines : list string :=
  [("# regions of interest" ++ String LF "")%string;
   line ["chr2"; "10"; "20"; "second"];
   line ["chr1"; "5"; "2000"]].

Definition bed_fs : FileSystem :=
  fun path =>
    if String.eqb path "regions.bed" then ok bed_lines
    else raise (OSError path).

Definition bed_args : Args :=
  {| regions := None; regions_file := Some "regions.bed" |}.

Example bed_build :
  get_regions no_parser bed_fs bed_args genome true
  = {| opened := ["regions.bed"];
       value := inr [ {| chrom_id := 0; start := 5; end_ := 1000;
                         name := None |};
                      {| chrom_id := 1; start := 10; end_ := 20;
                         name := Some "second" |} ] |}.
Proof. reflexivity. Qed.




(** Explicit regions given in descending order. *)
Definition unsorted_args : Args :=
  {| regions := Some ["chr2"; "chr1"]; regions_file := None |}.

Lemma regions_sorted_witness :
  let built := get_regions no_parser bed_fs unsorted_args genome true in
  let it :=
    fetch_iterator no_parser bed_fs GeneratorExamples.two_chrom_source
      unsorted_args genome true true in
  opened it = opened built
  /\ (forall e, value built = inl e -> value it = inl e)
  /\ (forall regions, value built = inr regions ->
        StronglySorted interval_le regions
        /\ (exists raw,
               value (get_regions no_parser bed_fs unsorted_args genome
                        false) = inr raw
               /\ Permutation raw regions)
        /\ value it
           = inr (_fetch_regions_wo_duplicates
                    GeneratorExamples.two_chrom_source regions genome
                    true)).
Proof.
  apply (regions_sorted_before_fetch no_parser genome bed_fs
           GeneratorExamples.two_chrom_source unsorted_args true true).
  left. reflexivity.
Defined.

Example unsorted_build :
  value (get_regions no_parser bed_fs unsorted_args genome true)
  = inr [ {| chrom_id := 0; start := 0; end_ := 1000; name := None |};
          {| chrom_id := 1; start := 0; end_ := 500; name := None |} ].
Proof. reflexivity. Qed.

(** [int] on the edges of its input language. *)
Example int_accepts :
  PyStr.int (String TAB "-1_000" ++ String LF "") = ok (-1000)
  /\ PyStr.int " +0012 " = ok 12
  /\ PyStr.int (String (ascii_of_nat 160) "7") = ok 7.
Proof. repeat split. Qed.

Example int_rejects :
  PyStr.int "" = raise (ValueError "")
  /\ PyStr.int "-" = raise (ValueError "-")
  /\ PyStr.int "- 1" = raise (ValueError "- 1")
  /\ PyStr.int "1 2" = raise (ValueError "1 2")
  /\ PyStr.int "_1" = raise (ValueError "_1")
  /\ PyStr.int "1_" = raise (ValueError "1_")
  /\ PyStr.int "1__0" = raise (ValueError "1__0")
  /\ PyStr.int "1.5" = raise (ValueError "1.5").
Proof. repeat split. Qed.

(** The separators FS, GS, RS, US are stripped from a line but are no white
    space for [int]: a start column padded with one is malformed. *)
Example int_rejects_separators :
  PyStr.int (String (ascii_of_nat 28) "7")
  = raise (ValueError (String (ascii_of_nat 28) "7"))
  /\ PyStr.int ("7" ++ String (ascii_of_nat 31) "")
     = raise (ValueError ("7" ++ String (ascii_of_nat 31) ""))
  /\ interval_of_line genome
       (line ["chr1"; String (ascii_of_nat 28) "5"; "20"])
     = raise (ValueError (String (ascii_of_nat 28) "5"))
  /\ value (get_regions no_parser
              (fun _ => ok [line ["chr1"; String (ascii_of_nat 28) "5"; "20"]])
              bed_args genome true)
     = raise (ValueError (String (ascii_of_nat 28) "5")).
Proof. repeat split. Qed.

(** A run of [n] digits. *)
Fixpoint ones (n : nat) : string :=
  match n with
  | O => EmptyString
  | S n' => String "1" (ones n')
  end.

(** The limit on the number of digits: 4300 digits convert, 4301 do not. *)
Example int_digit_limit :
  (exists z, PyStr.int (ones 4300) = ok z)
  /\ PyStr.int (ones 4301) = raise (ValueError (ones 4301)).
Proof.
  split.
  - eexists. vm_compute. reflexivity.
  - vm_compute. reflexivity.
Qed.

End BuilderExamples.


(** * Sequence helpers *)

(** [rev_comp], [cond_rev_comp], [cond_reverse] and [gc_count]. A sequence
    is the list of its characters. *)
Module Sequences.

Open Scope char_scope.
Open Scope nat_scope.

(** The dictionary [_rev_comp]. *)
Definition _rev_comp : list (ascii * ascii) :=
  [("A", "T"); ("T", "A"); ("C", "G"); ("G", "C");
   ("a", "T"); ("t", "A"); ("c", "G"); ("g", "C");
   ("N", "N"); ("n", "N")].

(** [d.get(key, default)] *)
Fixpoint dict_get (d : list (ascii * ascii)) (key default : ascii) : ascii :=
  match d with
  | [] => default
  | (k, v) :: d' => if Ascii.eqb k key then v else dict_get d' key default
  end.

(** [_rev_comp.get(nt, 'X')] *)
Definition complement (nt : ascii) : ascii := dict_get _rev_comp nt "X".

(** [''.join(_rev_comp.get(nt, 'X') for nt in seq[::-1])] *)
Definition rev_comp (seq : list ascii) : list ascii :=
  map complement (rev seq).

Definition cond_rev_comp (seq : list ascii) (strand : bool) : list ascii :=
  if strand then seq else rev_comp seq.

(** [qual if strand else qual[::-1]] *)
Definition cond_reverse {A : Type} (qual : list A) (strand : bool) : list A :=
  if strand then qual else rev qual.

(** [seq.count(c)] for a one-character [c]. *)
Definition count (c : ascii) (seq : list ascii) : nat :=
  List.length (filter (Ascii.eqb c) seq).

Definition gc_count (seq : list ascii) : nat :=
  count "C" seq + count "G" seq.

(** The upper-case nucleotide letters and [N]. *)
Definition is_base (c : ascii) : Prop :=
  c = "A" \/ c = "C" \/ c = "G" \/ c = "T" \/ c = "N".

Lemma count_app c a b : count c (a ++ b) = count c a + count c b.
Proof. unfold count. now rewrite filter_app, length_app. Qed.

Lemma count_rev c s : count c (rev s) = count c s.
Proof.
  induction s as [|x s IH]; [reflexivity|].
  simpl rev. rewrite count_app, IH. unfold count. simpl.
  destruct (Ascii.eqb c x); simpl; lia.
Qed.

Lemma count_le c s : count c s <= List.length s.
Proof. unfold count. apply filter_length_le. Qed.

Lemma complement_C x :
  Ascii.eqb "C" (complement x) = Ascii.eqb "G" x || Ascii.eqb "g" x.
Proof. destruct x as [[] [] [] [] [] [] [] []]; reflexivity. Qed.

Lemma complement_G x :
  Ascii.eqb "G" (complement x) = Ascii.eqb "C" x || Ascii.eqb "c" x.
Proof. destruct x as [[] [] [] [] [] [] [] []]; reflexivity. Qed.

Lemma count_complement_C s :
  count "C" (map complement s) = count "G" s + count "g" s.
Proof.
  induction s as [|x s IH]; [reflexivity|].
  unfold count in *. cbn [map filter]. rewrite complement_C.
  destruct x as [[] [] [] [] [] [] [] []]; simpl; rewrite IH; lia.
Qed.

Lemma count_complement_G s :
  count "G" (map complement s) = count "C" s + count "c" s.
Proof.
  induction s as [|x s IH]; [reflexivity|].
  unfold count in *. cbn [map filter]. rewrite complement_G.
  destruct x as [[] [] [] [] [] [] [] []]; simpl; rewrite IH; lia.
Qed.

(** [rev_comp] keeps the length and reverses the order of concatenation. *)
Theorem rev_comp_app (a b : list ascii) :
  List.length (rev_comp a) = List.length a
  /\ rev_comp (a ++ b) = rev_comp b ++ rev_comp a.
Proof.
  unfold rev_comp. split.
  - now rewrite length_map, length_rev.
  - now rewrite rev_app_distr, map_app.
Qed.

(** On sequences of the letters A, C, G, T, N, [rev_comp] undoes itself. *)
Theorem rev_comp_involutive (seq : list ascii) :
  Forall is_base seq -> rev_comp (rev_comp seq) = seq.
Proof.
  intro H. unfold rev_comp.
  rewrite <- map_rev, rev_involutive, map_map.
  induction H as [|x s Hx _ IH]; [reflexivity|].
  simpl map. rewrite IH. f_equal.
  destruct Hx as [->|[->|[->|[->| ->]]]]; reflexivity.
Qed.

(** [gc_count] counts upper-case letters only, while [rev_comp] writes the
    complement of a lower-case letter in upper case: the reverse complement
    has the G and C of the sequence in either case. *)
Theorem gc_count_rev_comp (seq : list ascii) :
  gc_count (rev_comp seq) = gc_count seq + count "c" seq + count "g" seq.
Proof.
  unfold gc_count, rev_comp.
  rewrite count_complement_C, count_complement_G, !count_rev. lia.
Qed.

(** [gc_count] is additive over concatenation and bounded by the length. *)
Theorem gc_count_app (a b : list ascii) :
  gc_count (a ++ b) = gc_count a + gc_count b
  /\ gc_count a <= List.length a.
Proof.
  unfold gc_count. split; [rewrite !count_app; lia|].
  unfold count. induction a as [|x s IH]; [simpl; lia|].
  cbn [filter List.length].
  destruct x as [[] [] [] [] [] [] [] []]; simpl; lia.
Qed.

(** Applying [cond_reverse] twice with one strand gives the qualities back,
    and [cond_rev_comp] does the same on sequences of A, C, G, T, N. *)
Theorem cond_reverse_involutive (strand : bool) (qual seq : list ascii) :
  Forall is_base seq ->
  cond_reverse (cond_reverse qual strand) strand = qual
  /\ cond_rev_comp (cond_rev_comp seq strand) strand = seq.
Proof.
  intro H. unfold cond_reverse, cond_rev_comp. destruct strand.
  - split; reflexivity.
  - split; [apply rev_involutive|now apply rev_comp_involutive].
Qed.

Lemma rev_comp_involutive_witness :
  rev_comp (rev_comp ["A"; "C"; "G"; "T"; "N"]) = ["A"; "C"; "G"; "T"; "N"].
Proof.
  apply rev_comp_involutive.
  repeat (apply Forall_cons; [unfold is_base; auto 6|]). apply Forall_nil.
Defined.

Lemma cond_reverse_involutive_witness :
  cond_reverse (cond_reverse ["I"; "5"; "#"] false) false = ["I"; "5"; "#"]
  /\ cond_rev_comp (cond_rev_comp ["G"; "A"; "T"] false) false
     = ["G"; "A"; "T"].
Proof.
  apply (cond_reverse_involutive false ["I"; "5"; "#"] ["G"; "A"; "T"]).
  repeat (apply Forall_cons; [unfold is_base; auto 6|]). apply Forall_nil.
Defined.

End Sequences.

(** * Common prefix and suffix *)

(** [common_prefix] and [common_suffix]. A sequence is the list of its
    characters; the search stops at the first index where a sequence
    differs from [seq0] or is too short ([IndexError]). *)
Module Affixes.

Open Scope nat_scope.

(** The loop over [seqs] at index [i]: [true] when it runs to its end,
    [false] when [seq[i] != nt] or [seq[i]] raises [IndexError]. *)
Fixpoint agree_at (i : nat) (nt : ascii) (seqs : list (list ascii)) : bool :=
  match seqs with
  | [] => true
  | seq :: seqs' =>
      match nth_error seq i with
      | None => false
      | Some c => if Ascii.eqb c nt then agree_at i nt seqs' else false
      end
  end.

(** The loop over [enumerate(seq0)], at index [i] with [rest] left. *)
Fixpoint prefix_loop (i : nat) (rest : list ascii) (seqs : list (list ascii))
  : nat :=
  match rest with
  | [] => i
  | nt :: rest' =>
      if agree_at i nt seqs then prefix_loop (S i) rest' seqs else i
  end.

Definition common_prefix (seq0 : list ascii) (seqs : list (list ascii))
  : nat :=
  prefix_loop 0 seq0 seqs.

(** [seq[-i]] for [i >= 1]; [None] is [IndexError]. *)
Definition from_end (seq : list ascii) (i : nat) : option ascii :=
  if i <=? List.length seq then nth_error seq (List.length seq - i)
  else None.

Fixpoint agree_from_end (i : nat) (nt : ascii) (seqs : list (list ascii))
  : bool :=
  match seqs with
  | [] => true
  | seq :: seqs' =>
      match from_end seq i with
      | None => false
      | Some c => if Ascii.eqb c nt then agree_from_end i nt seqs' else false
      end
  end.

(** The loop over [itertools.count(1)], at [i], for at most [fuel] rounds;
    [None] when the rounds run out. *)
Fixpoint suffix_loop (fuel i : nat) (seq0 : list ascii)
    (seqs : list (list ascii)) : option nat :=
  match fuel with
  | O => None
  | S fuel' =>
      match from_end seq0 i with
      | None => Some (i - 1)
      | Some nt =>
          if agree_from_end i nt seqs
          then suffix_loop fuel' (S i) seq0 seqs
          else Some (i - 1)
      end
  end.

Definition common_suffix (seq0 : list ascii) (seqs : list (list ascii))
  : option nat :=
  suffix_loop (S (List.length seq0)) 1 seq0 seqs.

Lemma agree_at_true i nt seqs :
  agree_at i nt seqs = true ->
  Forall (fun seq => nth_error seq i = Some nt) seqs.
Proof.
  induction seqs as [|seq seqs IH]; simpl; intro H; [constructor|].
  destruct (nth_error seq i) as [c|] eqn:E; [|discriminate].
  destruct (Ascii.eqb c nt) eqn:Ec; [|discriminate].
  apply Ascii.eqb_eq in Ec. subst c.
  constructor; [exact E|now apply IH].
Qed.

Lemma agree_at_false i nt seqs :
  agree_at i nt seqs = false ->
  exists seq, In seq seqs /\ nth_error seq i <> Some nt.
Proof.
  induction seqs as [|seq seqs IH]; simpl; intro H; [discriminate|].
  destruct (nth_error seq i) as [c|] eqn:E.
  - destruct (Ascii.eqb c nt) eqn:Ec.
    + destruct (IH H) as [s [Hin Hs]]. exists s. split; [now right|exact Hs].
    + apply Ascii.eqb_neq in Ec.
      exists seq. split; [now left|]. rewrite E. congruence.
  - exists seq. split; [now left|]. rewrite E. discriminate.
Qed.

Lemma firstn_snoc (seq : list ascii) : forall i nt,
  nth_error seq i = Some nt -> firstn (S i) seq = firstn i seq ++ [nt].
Proof.
  induction seq as [|x seq IH]; intros [|i] nt; simpl; try discriminate.
  - now intros [= ->].
  - intro H. f_equal. now apply IH.
Qed.

Lemma prefix_loop_sound rest : forall pre seqs,
  Forall (fun seq => firstn (List.length pre) seq = pre) seqs ->
  prefix_loop (List.length pre) rest seqs <= List.length (pre ++ rest)
  /\ Forall (fun seq =>
               firstn (prefix_loop (List.length pre) rest seqs) seq
               = firstn (prefix_loop (List.length pre) rest seqs)
                   (pre ++ rest)) seqs.
Proof.
  induction rest as [|nt rest IH]; intros pre seqs Hpre; simpl.
  - rewrite app_nil_r, firstn_all. split; [lia|exact Hpre].
  - destruct (agree_at (List.length pre) nt seqs) eqn:E.
    + assert (H : Forall (fun seq => firstn (List.length (pre ++ [nt])) seq
                                     = pre ++ [nt]) seqs).
      { apply agree_at_true in E. rewrite Forall_forall in *.
        intros seq Hin.
        replace (List.length (pre ++ [nt])) with (S (List.length pre))
          by (rewrite length_app; simpl; lia).
        rewrite (firstn_snoc seq _ nt (E seq Hin)). now rewrite Hpre. }
      specialize (IH (pre ++ [nt]) seqs H).
      replace (List.length (pre ++ [nt])) with (S (List.length pre)) in IH
        by (rewrite length_app; simpl; lia).
      now rewrite <- app_assoc in IH.
    + rewrite firstn_app, Nat.sub_diag, firstn_all. simpl.
      rewrite app_nil_r, length_app. split; [lia|exact Hpre].
Qed.

Lemma prefix_loop_maximal rest : forall pre seqs,
  prefix_loop (List.length pre) rest seqs = List.length (pre ++ rest)
  \/ exists seq,
       In seq seqs
       /\ nth_error seq (prefix_loop (List.length pre) rest seqs)
          <> nth_error (pre ++ rest)
               (prefix_loop (List.length pre) rest seqs).
Proof.
  induction rest as [|nt rest IH]; intros pre seqs; simpl.
  - left. now rewrite app_nil_r.
  - destruct (agree_at (List.length pre) nt seqs) eqn:E.
    + specialize (IH (pre ++ [nt]) seqs).
      replace (List.length (pre ++ [nt])) with (S (List.length pre)) in IH
        by (rewrite length_app; simpl; lia).
      now rewrite <- app_assoc in IH.
    + right. destruct (agree_at_false _ _ _ E) as [seq [Hin Hne]].
      exists seq. split; [exact Hin|].
      now rewrite nth_error_app2, Nat.sub_diag by lia.
Qed.

(** The first [common_prefix seq0 seqs] characters of every sequence are
    those of [seq0]. *)
Theorem common_prefix_sound (seq0 : list ascii) (seqs : list (list ascii)) :
  common_prefix seq0 seqs <= List.length seq0
  /\ Forall (fun seq =>
               firstn (common_prefix seq0 seqs) seq
               = firstn (common_prefix seq0 seqs) seq0) seqs.
Proof.
  apply (prefix_loop_sound seq0 [] seqs).
  apply Forall_forall. intros seq _. reflexivity.
Qed.

(** [common_prefix] is the longest such length: it is the length of [seq0],
    or some sequence ends there or has another character there. Without
    other sequences it is the length of [seq0]. *)
Theorem common_prefix_maximal (seq0 : list ascii) (seqs : list (list ascii)) :
  (common_prefix seq0 seqs = List.length seq0
   \/ exists seq,
        In seq seqs
        /\ nth_error seq (common_prefix seq0 seqs)
           <> nth_error seq0 (common_prefix seq0 seqs))
  /\ common_prefix seq0 [] = List.length seq0.
Proof.
  split; [exact (prefix_loop_maximal seq0 [] seqs)|].
  destruct (prefix_loop_maximal seq0 [] []) as [H|[seq [[] _]]]. exact H.
Qed.

Lemma from_end_rev seq i :
  1 <= i -> from_end seq i = nth_error (rev seq) (i - 1).
Proof.
  intro Hi. unfold from_end. rewrite nth_error_rev.
  destruct (Nat.leb_spec i (List.length seq));
    destruct (Nat.ltb_spec (i - 1) (List.length seq)); try lia;
    [|reflexivity].
  f_equal. lia.
Qed.

Lemma agree_from_end_rev i nt seqs :
  1 <= i ->
  agree_from_end i nt seqs = agree_at (i - 1) nt (map (@rev ascii) seqs).
Proof.
  intro Hi. induction seqs as [|seq seqs IH]; simpl; [reflexivity|].
  rewrite (from_end_rev seq i Hi), IH. reflexivity.
Qed.

Lemma skipn_cons_nth (s : list ascii) : forall k x,
  nth_error s k = Some x -> skipn k s = x :: skipn (S k) s.
Proof.
  induction s as [|y s IH]; intros [|k] x; simpl; try discriminate.
  - now intros [= ->].
  - intro H. now rewrite (IH k x H).
Qed.

Lemma suffix_loop_spec seq0 seqs : forall fuel k,
  List.length seq0 + 1 <= fuel + k -> 1 <= fuel ->
  suffix_loop fuel (S k) seq0 seqs
  = Some (prefix_loop k (skipn k (rev seq0)) (map (@rev ascii) seqs)).
Proof.
  induction fuel as [|fuel IH]; intros k Hlen Hfuel; [lia|].
  cbn [suffix_loop].
  rewrite from_end_rev by lia. replace (S k - 1) with k by lia.
  destruct (nth_error (rev seq0) k) as [nt|] eqn:E.
  - rewrite (skipn_cons_nth _ _ _ E). cbn [prefix_loop].
    rewrite agree_from_end_rev by lia. replace (S k - 1) with k by lia.
    destruct (agree_at k nt (map (@rev ascii) seqs)); [|reflexivity].
    assert (Hk : k < List.length seq0).
    { rewrite <- (length_rev seq0). apply nth_error_Some. congruence. }
    apply IH; lia.
  - apply nth_error_None in E. rewrite skipn_all2 by exact E. reflexivity.
Qed.

(** [common_suffix] returns: the search needs no more rounds than [seq0] has
    characters, plus one. Its result is the common prefix of the reversed
    sequences. *)
Theorem common_suffix_spec (seq0 : list ascii) (seqs : list (list ascii)) :
  common_suffix seq0 seqs
  = Some (common_prefix (rev seq0) (map (@rev ascii) seqs)).
Proof.
  unfold common_suffix, common_prefix.
  rewrite (suffix_loop_spec seq0 seqs (S (List.length seq0)) 0) by lia.
  reflexivity.
Qed.

End Affixes.

(** * Letter suffixes *)

(** [letter_suffix]: one letter for the first [n] indices, two letters
    after that. *)
Module Letters.

Open Scope Z_scope.

(** The exceptions of [letter_suffix]: [IndexError] of [chars[i]] and
    [ZeroDivisionError] of [index // n]. *)
Inductive failure : Type :=
| BadIndex
| ZeroDivision.

(** [string.ascii_lowercase] *)
Definition ascii_lowercase : list ascii :=
  list_ascii_of_string "abcdefghijklmnopqrstuvwxyz".

(** [chars[i]]: a negative [i] counts from the end. *)
Definition py_get (chars : list ascii) (i : Z) : failure + ascii :=
  let n := Z.of_nat (List.length chars) in
  let j := if i <? 0 then i + n else i in
  if (0 <=? j) && (j <? n) then
    match nth_error chars (Z.to_nat j) with
    | Some c => inr c
    | None => inl BadIndex
    end
  else inl BadIndex.

Definition letter_suffix (index : Z) (chars : list ascii)
  : failure + list ascii :=
  let n := Z.of_nat (List.length chars) in
  if index <? n then
    match py_get chars index with
    | inl e => inl e
    | inr c => inr [c]
    end
  else if n =? 0 then inl ZeroDivision
  else
    match py_get chars (index / n - 1) with
    | inl e => inl e
    | inr c1 =>
        match py_get chars (index mod n) with
        | inl e => inl e
        | inr c2 => inr [c1; c2]
        end
    end.

Section LetterSuffix.

Variable chars : list ascii.

Local Abbreviation n := (Z.of_nat (List.length chars)).

Lemma py_get_in_range k :
  0 <= k < n ->
  exists c, py_get chars k = inr c /\ nth_error chars (Z.to_nat k) = Some c.
Proof.
  intro Hk. unfold py_get.
  destruct (Z.ltb_spec k 0); [lia|].
  destruct (Z.leb_spec 0 k); [|lia].
  destruct (Z.ltb_spec k n); [|lia]. simpl.
  destruct (nth_error chars (Z.to_nat k)) as [c|] eqn:E.
  - now exists c.
  - apply nth_error_None in E. lia.
Qed.

Lemma py_get_out_of_range k : n <= k -> 0 <= k -> py_get chars k = inl BadIndex.
Proof.
  intros Hk Hpos. unfold py_get.
  destruct (Z.ltb_spec k 0); [lia|].
  destruct (Z.ltb_spec k n); [lia|].
  now rewrite andb_false_r.
Qed.

Lemma two_letter_indices index :
  n <= index < n + n * n ->
  0 <= index / n - 1 < n /\ 0 <= index mod n < n.
Proof.
  intro H. assert (Hn : 0 < n) by nia.
  split; [|now apply Z.mod_pos_bound].
  assert (1 <= index / n) by (apply Z.div_le_lower_bound; lia).
  assert (index / n < n + 1) by (apply Z.div_lt_upper_bound; lia).
  lia.
Qed.

(** For a non-empty alphabet of [n] characters, [letter_suffix] gives the
    character at [index] for [0 <= index < n], the two characters at
    [index // n - 1] and [index % n] for [n <= index < n + n*n], and
    raises [IndexError] from [n + n*n] on. *)
Theorem letter_suffix_shape (index : Z) :
  chars <> [] ->
  (0 <= index < n ->
   exists c, letter_suffix index chars = inr [c]
             /\ nth_error chars (Z.to_nat index) = Some c)
  /\ (n <= index < n + n * n ->
      exists c1 c2,
        letter_suffix index chars = inr [c1; c2]
        /\ nth_error chars (Z.to_nat (index / n - 1)) = Some c1
        /\ nth_error chars (Z.to_nat (index mod n)) = Some c2)
  /\ (n + n * n <= index -> letter_suffix index chars = inl BadIndex).
Proof.
  intro Hne.
  assert (Hn : 0 < n) by (destruct chars; [contradiction|simpl; lia]).
  unfold letter_suffix. split; [|split].
  - intro H. destruct (Z.ltb_spec index n); [|lia].
    destruct (py_get_in_range index H) as [c [-> Hc]]. now exists c.
  - intro H. destruct (Z.ltb_spec index n); [lia|].
    destruct (Z.eqb_spec n 0) as [Hz|Hz]; [lia|].
    destruct (two_letter_indices index H) as [H1 H2].
    destruct (py_get_in_range _ H1) as [c1 [-> Hc1]].
    destruct (py_get_in_range _ H2) as [c2 [-> Hc2]].
    now exists c1, c2.
  - intro H. destruct (Z.ltb_spec index n); [nia|].
    destruct (Z.eqb_spec n 0) as [Hz|Hz]; [lia|].
    assert (n + 1 <= index / n) by (apply Z.div_le_lower_bound; lia).
    rewrite py_get_out_of_range by lia. reflexivity.
Qed.

(** For an alphabet without repeated characters, different indices in
    [0 <= index < n + n*n] get different suffixes. *)
Theorem letter_suffix_injective (i j : Z) :
  NoDup chars ->
  0 <= i < n + n * n -> 0 <= j < n + n * n ->
  letter_suffix i chars = letter_suffix j chars -> i = j.
Proof.
  intros Hnd Hi Hj.
  assert (Hn : 0 < n) by nia.
  assert (Hinj : forall a b, 0 <= a < n -> 0 <= b < n ->
                   nth_error chars (Z.to_nat a) = nth_error chars (Z.to_nat b) ->
                   a = b).
  { intros a b Ha Hb E.
    pose proof (proj1 (NoDup_nth_error chars) Hnd (Z.to_nat a) (Z.to_nat b))
      as H.
    assert (Z.to_nat a = Z.to_nat b) by (apply H; [lia|exact E]). lia. }
  unfold letter_suffix.
  destruct (Z.ltb_spec i n) as [Hin|Hin]; destruct (Z.ltb_spec j n) as [Hjn|Hjn].
  - destruct (py_get_in_range i) as [c [-> Hc]]; [lia|].
    destruct (py_get_in_range j) as [d [-> Hd]]; [lia|].
    intros [= ->]. apply Hinj; [lia|lia|congruence].
  - destruct (py_get_in_range i) as [c [-> Hc]]; [lia|].
    destruct (Z.eqb_spec n 0) as [Hz|Hz]; [lia|].
    destruct (two_letter_indices j) as [H1 H2]; [lia|].
    destruct (py_get_in_range _ H1) as [d1 [-> _]].
    destruct (py_get_in_range _ H2) as [d2 [-> _]]. discriminate.
  - destruct (py_get_in_range j) as [c [-> Hc]]; [lia|].
    destruct (Z.eqb_spec n 0) as [Hz|Hz]; [lia|].
    destruct (two_letter_indices i) as [H1 H2]; [lia|].
    destruct (py_get_in_range _ H1) as [d1 [-> _]].
    destruct (py_get_in_range _ H2) as [d2 [-> _]]. discriminate.
  - destruct (Z.eqb_spec n 0) as [Hz|Hz]; [lia|].
    destruct (two_letter_indices i) as [H1 H2]; [lia|].
    destruct (two_letter_indices j) as [H3 H4]; [lia|].
    destruct (py_get_in_range _ H1) as [c1 [-> Hc1]].
    destruct (py_get_in_range _ H2) as [c2 [-> Hc2]].
    destruct (py_get_in_range _ H3) as [d1 [-> Hd1]].
    destruct (py_get_in_range _ H4) as [d2 [-> Hd2]].
    intros [= -> ->].
    assert (E1 : i / n - 1 = j / n - 1) by (apply Hinj; [lia|lia|congruence]).
    assert (E2 : i mod n = j mod n) by (apply Hinj; [lia|lia|congruence]).
    rewrite (Z.div_mod i n), (Z.div_mod j n) by lia.
    rewrite E2. replace (i / n) with (j / n) by lia. reflexivity.
Qed.

(** A negative index counts from the end of the alphabet: [-n <= index < 0]
    gives the suffix of [index + n], and below [-n] the lookup raises
    [IndexError]. *)
Theorem letter_suffix_negative (index : Z) :
  index < 0 ->
  letter_suffix index chars
  = if -n <=? index then letter_suffix (index + n) chars else inl BadIndex.
Proof.
  intro Hneg. unfold letter_suffix, py_get.
  repeat match goal with
         | |- context [?a <? ?b] => destruct (Z.ltb_spec a b)
         | |- context [?a <=? ?b] => destruct (Z.leb_spec a b)
         end; try lia; reflexivity.
Qed.

End LetterSuffix.

Lemma letter_suffix_shape_witness :
  (0 <= 30 < 26 ->
   exists c, letter_suffix 30 ascii_lowercase = inr [c]
             /\ nth_error ascii_lowercase (Z.to_nat 30) = Some c)
  /\ (26 <= 30 < 26 + 26 * 26 ->
      exists c1 c2,
        letter_suffix 30 ascii_lowercase = inr [c1; c2]
        /\ nth_error ascii_lowercase (Z.to_nat (30 / 26 - 1)) = Some c1
        /\ nth_error ascii_lowercase (Z.to_nat (30 mod 26)) = Some c2)
  /\ (26 + 26 * 26 <= 30 ->
      letter_suffix 30 ascii_lowercase = inl BadIndex).
Proof.
  apply (letter_suffix_shape ascii_lowercase 30). discriminate.
Defined.

Lemma ascii_lowercase_NoDup : NoDup ascii_lowercase.
Proof.
  unfold ascii_lowercase. simpl.
  repeat (constructor; [simpl; intuition discriminate|]). constructor.
Qed.

Lemma letter_suffix_injective_witness :
  NoDup ascii_lowercase
  /\ letter_suffix 27 ascii_lowercase = inr ["a"%char; "b"%char]
  /\ 27 = 27.
Proof.
  split; [exact ascii_lowercase_NoDup|]. split; [reflexivity|].
  apply (letter_suffix_injective ascii_lowercase 27 27).
  - exact ascii_lowercase_NoDup.
  - simpl. lia.
  - simpl. lia.
  - reflexivity.
Defined.

Lemma letter_suffix_negative_witness :
  letter_suffix (-1) ascii_lowercase = inr ["z"%char].
Proof.
  rewrite (letter_suffix_negative ascii_lowercase (-1)) by lia.
  reflexivity.
Defined.

End Letters.

(** * Command lines and distances *)

(** [Process.command_str] and [parse_distance]. *)
Module Commands.

Open Scope string_scope.

Definition DQUOTE : ascii := ascii_of_nat 34.

(** ['"%s"' % entry if ' ' in entry else entry] *)
Definition quote_entry (entry : string) : string :=
  if PyStr.contains " " entry
  then String DQUOTE (entry ++ String DQUOTE EmptyString)
  else entry.

(** [' '.join(... for entry in self._command)] *)
Definition command_str (command : list string) : string :=
  String.concat " " (map quote_entry command).

(** [value.replace(',', '')] *)
Fixpoint remove_commas (s : string) : string :=
  match s with
  | EmptyString => EmptyString
  | String c s' =>
      if Ascii.eqb c "," then remove_commas s' else String c (remove_commas s')
  end.

(** [str.lower] on one character below 256: the letters A to Z and the
    accented capitals, the multiplication sign apart, move up by 32. *)
Definition lower_char (c : ascii) : ascii :=
  let k := nat_of_ascii c in
  if ((65 <=? k) && (k <=? 90)
      || (192 <=? k) && (k <=? 222) && negb (k =? 215))%nat
  then ascii_of_nat (k + 32) else c.

Fixpoint lower (s : string) : string :=
  match s with
  | EmptyString => EmptyString
  | String c s' => String (lower_char c) (lower s')
  end.

(** [s.endswith(c)] for a one-character [c]. *)
Fixpoint endswith (c : ascii) (s : string) : bool :=
  match s with
  | EmptyString => false
  | String d EmptyString => Ascii.eqb d c
  | String _ s' => endswith c s'
  end.

(** [s[:-1]] *)
Fixpoint drop_last (s : string) : string :=
  match s with
  | EmptyString => EmptyString
  | String _ EmptyString => EmptyString
  | String c s' => String c (drop_last s')
  end.

(** [scaled text k] stands for [int(float(text) * 1ek)]: floating point
    arithmetic is left out of the model. *)
Definition parse_distance (scaled : string -> Z -> result Z) (value : string)
  : result Z :=
  let value := lower (remove_commas value) in
  if endswith "m" value then scaled (drop_last value) 6%Z
  else if endswith "k" value then scaled (drop_last value) 3%Z
  else PyStr.int value.

Lemma split_no_sep sep s :
  PyStr.contains sep s = false -> PyStr.split sep s = [s].
Proof.
  induction s as [|c s IH]; simpl; [reflexivity|].
  intro H. apply orb_false_iff in H. destruct H as [H1 H2].
  rewrite Ascii.eqb_sym, H1, (IH H2). reflexivity.
Qed.

Lemma split_app_sep sep a b :
  PyStr.contains sep a = false ->
  PyStr.split sep (a ++ String sep b) = a :: PyStr.split sep b.
Proof.
  induction a as [|c a IH]; simpl.
  - intros _. now rewrite Ascii.eqb_refl.
  - intro H. apply orb_false_iff in H. destruct H as [H1 H2].
    rewrite Ascii.eqb_sym, H1, (IH H2). reflexivity.
Qed.

(** Splitting the command string at the spaces gives the command back,
    for a command with at least one entry and no space in any entry. *)
Theorem command_str_split (command : list string) :
  command <> [] ->
  Forall (fun entry => PyStr.contains " " entry = false) command ->
  PyStr.split " " (command_str command) = command.
Proof.
  intros Hne H. unfold command_str.
  induction H as [|x l Hx Hl IH]; [contradiction|].
  assert (Ex : quote_entry x = x) by (unfold quote_entry; now rewrite Hx).
  destruct l as [|y l].
  - simpl. rewrite Ex. now apply split_no_sep.
  - cbn [map String.concat] in *. rewrite Ex.
    change (" " ++ ?t) with (String " " t).
    rewrite (split_app_sep " " x _ Hx). f_equal.
    apply IH. discriminate.
Qed.

Lemma remove_commas_app a b :
  remove_commas (a ++ b) = remove_commas a ++ remove_commas b.
Proof.
  induction a as [|c a IH]; simpl; [reflexivity|].
  destruct (Ascii.eqb c ","); simpl; now rewrite IH.
Qed.

Lemma lower_char_idem c : lower_char (lower_char c) = lower_char c.
Proof. destruct c as [[] [] [] [] [] [] [] []]; reflexivity. Qed.

Lemma lower_char_comma c :
  Ascii.eqb (lower_char c) "," = Ascii.eqb c ",".
Proof. destruct c as [[] [] [] [] [] [] [] []]; reflexivity. Qed.

Lemma lower_remove_commas s :
  lower (remove_commas (lower s)) = lower (remove_commas s).
Proof.
  induction s as [|c s IH]; simpl; [reflexivity|].
  rewrite lower_char_comma.
  destruct (Ascii.eqb c ","); simpl; [exact IH|].
  now rewrite lower_char_idem, IH.
Qed.

(** [parse_distance] ignores commas wherever they stand and the case of
    the letters, so [K] and [M] are suffixes as [k] and [m] are. *)
Theorem parse_distance_insensitive (scaled : string -> Z -> result Z)
    (a b : string) :
  parse_distance scaled (a ++ String "," b) = parse_distance scaled (a ++ b)
  /\ parse_distance scaled (lower a) = parse_distance scaled a.
Proof.
  unfold parse_distance. split.
  - rewrite !remove_commas_app. simpl. reflexivity.
  - now rewrite lower_remove_commas.
Qed.

Lemma command_str_split_witness :
  PyStr.split " " (command_str ["samtools"; "view"; "-b"])
  = ["samtools"; "view"; "-b"].
Proof.
  apply command_str_split; [discriminate|].
  repeat constructor.
Defined.

Example command_str_quotes :
  command_str ["echo"; "two words"]
  = "echo " ++ String DQUOTE ("two words" ++ String DQUOTE "").
Proof. reflexivity. Qed.

Example parse_distance_plain :
  parse_distance (fun _ _ => raise ParseError) "1,250,000" = ok 1250000%Z.
Proof. reflexivity. Qed.

End Commands.

(** * Further properties of the generator and of the builder *)

Module Coverage.

Open Scope Z_scope.

(** [l1] is [l2] with some elements left out. *)
Inductive subseq {A : Type} : list A -> list A -> Prop :=
| subseq_nil : subseq [] []
| subseq_skip x l1 l2 : subseq l1 l2 -> subseq l1 (x :: l2)
| subseq_keep x l1 l2 : subseq l1 l2 -> subseq (x :: l1) (x :: l2).

(** The records the fetch of a region returns, none when the call raises. *)
Definition fetched (obj : Source) (genome : Genome) (region : NamedInterval)
  : list Entry :=
  match fetch_region obj genome region with
  | inr st => items st
  | inl _ => []
  end.

Definition all_fetched (obj : Source) (genome : Genome)
    (regions : list NamedInterval) : list Entry :=
  flat_map (fetched obj genome) regions.

(** Each region is on another chromosome than the region before it;
    [prev] is the chromosome before the first region. *)
Fixpoint chrom_changes (prev : option nat) (regions : list NamedInterval)
  : Prop :=
  match regions with
  | [] => True
  | r :: rest =>
      prev <> Some (chrom_id r) /\ chrom_changes (Some (chrom_id r)) rest
  end.

Lemma subseq_nil_l {A : Type} (l : list A) : subseq [] l.
Proof. induction l; now constructor. Qed.

Lemma subseq_refl {A : Type} (l : list A) : subseq l l.
Proof. induction l; now constructor. Qed.

Lemma subseq_app {A : Type} (a b c d : list A) :
  subseq a b -> subseq c d -> subseq (a ++ c) (b ++ d).
Proof.
  induction 1 as [|x l1 l2 _ IH|x l1 l2 _ IH]; simpl; intro Hcd.
  - exact Hcd.
  - apply subseq_skip. now apply IH.
  - apply subseq_keep. now apply IH.
Qed.

Section GeneratorCoverage.

Variable obj : Source.
Variable genome : Genome.
Variable start_attr : bool.

Lemma scan_subseq same p es :
  subseq (fst (scan start_attr same p es)) es.
Proof.
  induction es as [|e es IH]; simpl; [constructor|].
  destruct same.
  - destruct (get_start start_attr e) as [x|s]; simpl; [apply subseq_nil_l|].
    destruct (s <=? p); [now constructor|].
    destruct (scan start_attr true p es). simpl in *. now constructor.
  - destruct (scan start_attr false p es). simpl in *. now constructor.
Qed.

Lemma step_subseq c r :
  subseq (fst (region_step obj genome start_attr c r)) (fetched obj genome r).
Proof.
  unfold region_step, fetched, fetch_region, bind.
  destruct (chrom_name r genome) as [e|nm]; [constructor|].
  destruct (fetch obj nm (start r) (end_ r)) as [e|st]; [constructor|].
  pose proof (scan_subseq (same_chrom_as c r) (reset_start c r) (items st))
    as H.
  destruct (scan start_attr (same_chrom_as c r) (reset_start c r) (items st))
    as [ys [e|]]; simpl in *; [exact H|].
  destruct (fault st); [exact H|].
  destruct (last_entry (items st)) as [e|]; [|exact H].
  destruct (get_start start_attr e); exact H.
Qed.

Lemma run_subseq regions : forall c,
  subseq (List.concat (fst (run obj genome start_attr c regions)))
         (all_fetched obj genome regions).
Proof.
  induction regions as [|r rest IH]; intro c; [constructor|].
  rewrite run_cons_fst. cbn [List.concat all_fetched flat_map].
  apply subseq_app; [apply step_subseq|].
  destruct (snd (region_step obj genome start_attr c r)) as [e|c'].
  - apply subseq_nil_l.
  - apply IH.
Qed.

(** The generator yields records the fetches returned, in the order they
    were returned: its output is the concatenation of the fetches of the
    regions with some records left out. It adds, repeats and reorders
    nothing, whatever the source and the regions are. *)
Theorem generator_subsequence (regions : list NamedInterval) :
  subseq (items (_fetch_regions_wo_duplicates obj regions genome start_attr))
         (all_fetched obj genome regions).
Proof. rewrite fetch_unfold. apply run_subseq. Qed.

Lemma run_chain regions : forall c ss,
  chrom_changes (prev_chrom_id c) regions ->
  map_result (fetch_region obj genome) regions = inr ss ->
  Forall (fun st => Forall (readable start_attr) (items st)) ss ->
  List.concat (fst (run obj genome start_attr c regions)) = items (chain ss)
  /\ match snd (run obj genome start_attr c regions) with
     | inl e => Some e
     | inr _ => None
     end = fault (chain ss).
Proof.
  induction regions as [|r rest IH]; intros c ss Hch Hmap Hread.
  - injection Hmap as <-. split; reflexivity.
  - cbn [map_result] in Hmap. destruct Hch as [Hprev Hch].
    destruct (fetch_region obj genome r) as [e|st] eqn:Hf;
      [discriminate|].
    cbn [bind] in Hmap.
    destruct (map_result (fetch_region obj genome) rest) as [e|ss'] eqn:Hm;
      [discriminate|].
    injection Hmap as <-.
    inversion Hread as [|? ? Hst Hss']; subst.
    unfold fetch_region, bind in Hf.
    destruct (chrom_name r genome) as [e|nm] eqn:Hn; [discriminate|].
    assert (Hs : same_chrom_as c r = false).
    { unfold same_chrom_as. destruct (prev_chrom_id c) as [p|];
        [|reflexivity].
      apply Nat.eqb_neq. congruence. }
    cbn [run].
    rewrite (region_step_spec obj genome start_attr c r nm st Hn Hf Hst).
    unfold kept. rewrite Hs. cbn [chain].
    destruct (fault st) as [e|].
    + simpl. split; [apply app_nil_r|reflexivity].
    + destruct (IH (advance start_attr c r (items st)) ss' Hch eq_refl Hss')
        as [H1 H2].
      destruct (run obj genome start_attr
                  (advance start_attr c r (items st)) rest) as [bs r'].
      simpl in *. split; [now rewrite H1|exact H2].
Qed.

(** When every region is on another chromosome than the region before it,
    every fetch call succeeds and every start can be read, the generator
    suppresses nothing: it gives what chaining the fetches gives. *)
Theorem dedup_equals_chain (regions : list NamedInterval) (ss : list stream) :
  chrom_changes None regions ->
  map_result (fetch_region obj genome) regions = inr ss ->
  Forall (fun st => Forall (readable start_attr) (items st)) ss ->
  _fetch_regions_wo_duplicates obj regions genome start_attr = chain ss.
Proof.
  intros Hch Hmap Hread. rewrite fetch_unfold.
  destruct (run_chain regions init_cursor ss Hch Hmap Hread) as [H1 H2].
  rewrite H1, H2. now destruct (chain ss).
Qed.

End GeneratorCoverage.

Section BuilderCoverage.

Variable parse : Parser.
Variable genome : Genome.

Lemma index_of_nth name l : forall i,
  index_of name l = Some i -> exists len, nth_error l i = Some (name, len).
Proof.
  induction l as [|[n len] l IH]; simpl; intro i; [discriminate|].
  destruct (String.eqb_spec n name) as [->|Hne].
  - intros [= <-]. now exists len.
  - destruct (index_of name l) as [j|]; simpl; [|discriminate].
    intros [= <-]. apply IH. reflexivity.
Qed.

(** A region string without a colon is a chromosome name: an unknown name
    raises, and a known one gives the whole chromosome, from 0 to its
    length, without a name. *)
Theorem bare_chromosome_region (region : string) :
  PyStr.contains ":" region = false ->
  match genome_chrom_id genome region with
  | inl e => region_of_string parse genome region = inl e
  | inr cid =>
      exists len,
        genome_chrom_len genome cid = inr len
        /\ region_of_string parse genome region
           = inr {| chrom_id := cid; start := 0; end_ := len; name := None |}
  end.
Proof.
  intro Hc. unfold region_of_string. rewrite Hc.
  unfold genome_chrom_id.
  destruct (index_of region (chroms genome)) as [i|] eqn:E; [|reflexivity].
  destruct (index_of_nth _ _ _ E) as [len Hlen].
  exists (Z.of_N len). cbn [bind ok].
  unfold genome_chrom_len at 1 2. rewrite Hlen. cbn [bind ok].
  split; [reflexivity|].
  unfold mk_interval.
  destruct (Z.ltb_spec (Z.of_N len) 0) as [Hneg|_]; [lia|].
  cbn [bind ok]. unfold trim. cbn [chrom_id start end_ name].
  unfold genome_chrom_len. rewrite Hlen. cbn [bind ok].
  now rewrite Z.max_id, Z.min_id.
Qed.

(** With an explicit list of region strings, one string that cannot be made
    into an interval ends the build with an exception; otherwise the
    unsorted result has the interval of each string, in the order of the
    strings. *)
Theorem explicit_regions_build (fs : FileSystem) (sort : bool) (r : string)
    (rs : list string) (f : option string) :
  let args := {| regions := Some (r :: rs); regions_file := f |} in
  (forall bad err,
      In bad (r :: rs) -> region_of_string parse genome bad = inl err ->
      exists err', value (get_regions parse fs args genome sort) = inl err')
  /\ (forall intervals,
         value (get_regions parse fs args genome false) = inr intervals ->
         Forall2 (fun s iv => region_of_string parse genome s = inr iv)
                 (r :: rs) intervals).
Proof.
  intro args. split.
  - intros bad err Hin Hbad.
    destruct (map_result_fail (region_of_string parse genome) (r :: rs)
                bad err Hin Hbad) as [err' H].
    exists err'. subst args. unfold get_regions, regions_list.
    cbn [has_regions regions value]. now rewrite H.
  - intros intervals H. subst args. unfold get_regions, regions_list in H.
    cbn [has_regions regions value] in H.
    apply map_result_inv.
    destruct (map_result (region_of_string parse genome) (r :: rs));
      [discriminate|].
    cbn [bind ok] in H. now injection H as <-.
Qed.

End BuilderCoverage.

Lemma dedup_equals_chain_witness :
  _fetch_regions_wo_duplicates GeneratorExamples.two_chrom_source
    [Fixture.iv 0 0 100; Fixture.iv 1 0 100] Fixture.genome true
  = chain [ {| items := [Fixture.rec 5 "5"]; fault := None |};
            {| items := [Fixture.rec 5 "5"]; fault := None |} ].
Proof.
  apply dedup_equals_chain.
  - simpl. repeat split; discriminate.
  - reflexivity.
  - repeat constructor; eexists; reflexivity.
Defined.

Lemma bare_chromosome_region_witness :
  exists len,
    genome_chrom_len Fixture.genome 1 = inr len
    /\ region_of_string Fixture.no_parser Fixture.genome "chr2"
       = inr {| chrom_id := 1; start := 0; end_ := len; name := None |}.
Proof.
  exact (bare_chromosome_region Fixture.no_parser Fixture.genome "chr2"
           eq_refl).
Defined.

End Coverage.

(** * Output of a process *)

(** [_normalize_output]: the text of a stream of a finished process, cut in
    the middle when it is long. *)
Module Output.

Open Scope Z_scope.

(** The first [n] characters. *)
Fixpoint take (n : nat) (s : string) : string :=
  match n, s with
  | S n', String c s' => String c (take n' s')
  | _, _ => EmptyString
  end.

(** What is left after the first [n] characters. *)
Fixpoint drop (n : nat) (s : string) : string :=
  match n, s with
  | S n', String _ s' => drop n' s'
  | _, _ => s
  end.

(** A bound of a slice, counted from the end when negative and clipped to
    the text. *)
Definition slice_index (s : string) (i : Z) : nat :=
  let n := Z.of_nat (String.length s) in
  Z.to_nat (Z.min n (if i <? 0 then Z.max (i + n) 0 else i)).

(** [s[:stop]] *)
Definition slice_to (s : string) (stop : Z) : string :=
  take (slice_index s stop) s.

(** [s[start:]] *)
Definition slice_from (s : string) (start : Z) : string :=
  drop (slice_index s start) s.

(** The text between the two halves. *)
Definition ELLIPSIS : string :=
  String LF (String "." (String "." (String "." (String LF EmptyString)))).

(** [decode] stands for [text.decode('utf-8', 'replace')]. *)
Definition _normalize_output {B : Type} (decode : B -> string) (text : B)
    (max_len : Z) : string :=
  let text := decode text in
  if max_len <? Z.of_nat (String.length text) then
    (PyStr.strip (slice_to text (max_len / 2)) ++ ELLIPSIS
     ++ PyStr.strip (slice_from text ((- max_len) / 2)))%string
  else PyStr.strip text.

Lemma length_append (a b : string) :
  String.length (a ++ b) = (String.length a + String.length b)%nat.
Proof. induction a as [|c a IH]; simpl; [reflexivity|now rewrite IH]. Qed.

Lemma lstrip_length s : (String.length (PyStr.lstrip s) <= String.length s)%nat.
Proof.
  induction s as [|c s IH]; simpl; [lia|].
  destruct (PyStr.is_space c); simpl; lia.
Qed.

Lemma rstrip_length s : (String.length (PyStr.rstrip s) <= String.length s)%nat.
Proof.
  induction s as [|c s IH]; simpl; [lia|].
  destruct (PyStr.rstrip s) as [|d t]; simpl in *.
  - destruct (PyStr.is_space c); simpl; lia.
  - lia.
Qed.

Lemma strip_length s : (String.length (PyStr.strip s) <= String.length s)%nat.
Proof.
  unfold PyStr.strip.
  pose proof (rstrip_length (PyStr.lstrip s)). pose proof (lstrip_length s).
  lia.
Qed.

Lemma take_length n : forall s, (String.length (take n s) <= n)%nat.
Proof.
  induction n as [|n IH]; intros [|c s]; simpl; try lia.
  specialize (IH s). lia.
Qed.

Lemma drop_length n : forall s,
  String.length (drop n s) = (String.length s - n)%nat.
Proof.
  induction n as [|n IH]; intros [|c s]; simpl; try lia.
  apply IH.
Qed.

(** For [max_len >= 1] the result has at most [max_len + 5] characters,
    however long the text is. *)
Theorem normalize_output_length {B : Type} (decode : B -> string) (text : B)
    (max_len : Z) :
  1 <= max_len ->
  Z.of_nat (String.length (_normalize_output decode text max_len))
  <= max_len + 5.
Proof.
  intro Hmax. unfold _normalize_output.
  set (t := decode text).
  destruct (Z.ltb_spec max_len (Z.of_nat (String.length t))) as [Hlong|Hshort].
  - rewrite !length_append. change (String.length ELLIPSIS) with 5%nat.
    pose proof (strip_length (slice_to t (max_len / 2))) as H1.
    pose proof (strip_length (slice_from t ((- max_len) / 2))) as H2.
    unfold slice_to, slice_from in *.
    pose proof (take_length (slice_index t (max_len / 2)) t) as H3.
    rewrite drop_length in H2.
    assert (Ha : Z.of_nat (slice_index t (max_len / 2)) = max_len / 2).
    { unfold slice_index.
      assert (0 <= max_len / 2) by (apply Z.div_pos; lia).
      assert (max_len / 2 <= max_len) by (apply Z.div_le_upper_bound; lia).
      destruct (Z.ltb_spec (max_len / 2) 0); lia. }
    assert (Hb : Z.of_nat (slice_index t ((- max_len) / 2))
                 = Z.of_nat (String.length t) + (- max_len) / 2).
    { unfold slice_index.
      assert ((- max_len) / 2 < 0) by (apply Z.div_lt_upper_bound; lia).
      assert (- max_len <= (- max_len) / 2)
        by (apply Z.div_le_lower_bound; lia).
      destruct (Z.ltb_spec ((- max_len) / 2) 0); lia. }
    assert (Hsum : max_len / 2 - (- max_len) / 2 = max_len).
    { pose proof (Z.div_mod max_len 2 ltac:(lia)).
      pose proof (Z.div_mod (- max_len) 2 ltac:(lia)).
      pose proof (Z.mod_pos_bound max_len 2 ltac:(lia)).
      pose proof (Z.mod_pos_bound (- max_len) 2 ltac:(lia)).
      lia. }
    assert (Hneg : (- max_len) / 2 < 0)
      by (apply Z.div_lt_upper_bound; lia).
    generalize dependent (max_len / 2).
    generalize dependent ((- max_len) / 2).
    intros q2 H2 Hb Hneg q1 H1 H3 Ha Hsum.
    generalize dependent (slice_index t q1).
    generalize dependent (slice_index t q2).
    intros. lia.
  - pose proof (strip_length t). lia.
Qed.

(** For [max_len = 0] the second half is the slice [text[0:]]: a text that
    is not empty comes back whole after the ellipsis. *)
Theorem normalize_output_zero {B : Type} (decode : B -> string) (text : B) :
  decode text <> EmptyString ->
  _normalize_output decode text 0
  = (ELLIPSIS ++ PyStr.strip (decode text))%string.
Proof.
  intro Hne. unfold _normalize_output.
  destruct (decode text) as [|c t]; [contradiction|].
  reflexivity.
Qed.

Lemma normalize_output_length_witness :
  Z.of_nat (String.length
              (_normalize_output (fun s : string => s)
                 "samtools: failed to open the file"%string 10))
  <= 10 + 5.
Proof.
  apply (normalize_output_length (fun s : string => s)
           "samtools: failed to open the file"%string 10).
  lia.
Defined.

Lemma normalize_output_zero_witness :
  _normalize_output (fun s : string => s) "error"%string 0
  = (ELLIPSIS ++ PyStr.strip "error")%string.
Proof.
  apply (normalize_output_zero (fun s : string => s) "error"%string).
  discriminate.
Defined.

End Output.

(** * The two paths of the fetch iterator *)

Module Paths.

Lemma chain_no_fault (ss : list stream) :
  Forall (fun st => fault st = None) ss ->
  chain ss = {| items := List.concat (map items ss); fault := None |}.
Proof.
  induction 1 as [|st ss Hst _ IH]; simpl; [reflexivity|].
  now rewrite Hst, IH.
Qed.

(** Once the regions are built, the two paths treat a failing fetch call
    differently. With [no_duplicates] the call of [fetch_iterator] itself
    does not raise: it returns the generator. Without it every fetch is
    called before anything is yielded: one failing call makes
    [fetch_iterator] raise, and when all calls succeed and no iterator
    fails the result is all their records in region order. *)
Theorem fetch_call_errors (parse : Parser) (fs : FileSystem) (obj : Source)
    (args : Args) (genome : Genome) (start_attr : bool)
    (regions : list NamedInterval) :
  has_regions args = true \/ has_regions_file args = true ->
  value (get_regions parse fs args genome true) = inr regions ->
  value (fetch_iterator parse fs obj args genome true start_attr)
  = inr (_fetch_regions_wo_duplicates obj regions genome start_attr)
  /\ (forall bad e,
         In bad regions -> fetch_region obj genome bad = inl e ->
         exists e',
           value (fetch_iterator parse fs obj args genome false start_attr)
           = inl e')
  /\ (forall ss,
         map_result (fetch_region obj genome) regions = inr ss ->
         Forall (fun st => fault st = None) ss ->
         value (fetch_iterator parse fs obj args genome false start_attr)
         = inr {| items := List.concat (map items ss); fault := None |}).
Proof.
  intros Hsel Hbuilt.
  assert (Hpath : negb (has_regions args) && negb (has_regions_file args)
                  = false).
  { destruct Hsel as [-> | ->]; [reflexivity|apply andb_false_r]. }
  unfold fetch_iterator. rewrite Hpath. cbn [value].
  rewrite Hbuilt. cbn [bind negb].
  split; [reflexivity|]. split.
  - intros bad e Hin Hbad.
    destruct (map_result_fail (fetch_region obj genome) regions bad e
                Hin Hbad) as [e' ->].
    now exists e'.
  - intros ss -> Hok. cbn [bind ok]. now rewrite chain_no_fault.
Qed.

Lemma fetch_call_errors_witness :
  let regions := [Fixture.iv 0 0 1000; Fixture.iv 1 0 500] in
  value (fetch_iterator Fixture.no_parser BuilderExamples.bed_fs
           GeneratorExamples.two_chrom_source BuilderExamples.unsorted_args
           Fixture.genome true true)
  = inr (_fetch_regions_wo_duplicates GeneratorExamples.two_chrom_source
           regions Fixture.genome true)
  /\ (forall bad e,
         In bad regions ->
         fetch_region GeneratorExamples.two_chrom_source Fixture.genome bad
         = inl e ->
         exists e',
           value (fetch_iterator Fixture.no_parser BuilderExamples.bed_fs
                    GeneratorExamples.two_chrom_source
                    BuilderExamples.unsorted_args Fixture.genome false true)
           = inl e')
  /\ (forall ss,
         map_result
           (fetch_region GeneratorExamples.two_chrom_source Fixture.genome)
           regions = inr ss ->
         Forall (fun st => fault st = None) ss ->
         value (fetch_iterator Fixture.no_parser BuilderExamples.bed_fs
                  GeneratorExamples.two_chrom_source
                  BuilderExamples.unsorted_args Fixture.genome false true)
         = inr {| items := List.concat (map items ss); fault := None |}).
Proof.
  apply fetch_call_errors.
  - left. reflexivity.
  - reflexivity.
Defined.

End Paths.
